(** * Thread assembly of the annotation admin UI

    A shallow embedding of the thread-assembly code of
    [annotation-admin-ui-copy/src/pages/ChatView.tsx], of the import guard
    of the import page and of the two annotation-creation flows, together
    with the properties the specification states about them. *)

From Stdlib Require Import ZArith Ascii String DecimalString DecimalZ.
From Stdlib Require Import PrimFloat Uint63 SpecFloat FloatOps.
From stdpp Require Import gmap strings list fin_maps sorting.

Open Scope Z_scope.
Open Scope string_scope.
Open Scope list_scope.

(** ** JavaScript primitives used by the code *)

Module JS.

(** [Number.prototype.toString] on an integral identifier: decimal digits,
    with a leading minus sign for negative numbers. *)
Definition toString (n : Z) : string :=
  NilZero.string_of_int (Z.to_int n).

(** Truthiness of a string: every string but the empty one. *)
Definition truthy (s : string) : bool :=
  negb (bool_decide (s = "")).

(** Truthiness of an optional string ([undefined] is falsy). *)
Definition truthy_opt (o : option string) : bool :=
  match o with
  | Some s => truthy s
  | None => false
  end.

(** [a || b] on strings. *)
Definition or_else (a b : string) : string :=
  if truthy a then a else b.

End JS.

(** ** Data model ([config/api.ts]) *)

(** [ChatMessage extends DataItem]: the fields the view reads. *)
Record ChatMessage := mkMessage {
  id : Z;
  turn_id : string;
  user_id : string;
  content : string;
  reply_to_turn : option string;
  timestamp : string;
  created_at : string
}.

#[global] Instance ChatMessage_eq_dec : EqDecision ChatMessage.
Proof. solve_decision. Defined.

(** One element of the arrays returned by [getThreadAnnotations] (typed
    [any[]] in the code): the fields read by the view and the provenance
    fields of the data model. *)
Record Annotation := mkAnnotation {
  a_turn_id : string;
  a_confidence : float;
  a_notes : string;
  a_created_at : string;
  a_source : string
}.

(** [Record<string, any[]>] as traversed by [Object.entries]: thread id and
    its annotations, in property order. *)
Definition ThreadAnnotations := list (string * list Annotation).

Module ChatView.

(** [message.turn_id || message.id.toString()] *)
Definition messageKey (m : ChatMessage) : string :=
  JS.or_else (turn_id m) (JS.toString (id m)).

(** The predicate given to [annotations.find]. *)
Definition matchesMessage (m : ChatMessage) (a : Annotation) : bool :=
  bool_decide (a_turn_id a = turn_id m)
  || bool_decide (a_turn_id a = JS.toString (id m)).

(** [Array.prototype.find] *)
Fixpoint find {A} (p : A -> bool) (l : list A) : option A :=
  match l with
  | [] => None
  | x :: l' => if p x then Some x else find p l'
  end.

(** The [for ... of Object.entries(threadAnnotations)] loop. *)
Fixpoint findInEntries (es : ThreadAnnotations) (m : ChatMessage)
  : option (string * Annotation) :=
  match es with
  | [] => None
  | (threadId, annotations) :: es' =>
      match find (matchesMessage m) annotations with
      | Some a => Some (threadId, a)
      | None => findInEntries es' m
      end
  end.

(** [findAnnotationForMessage]; [None] for the query data stands for
    [undefined] (annotations not loaded). *)
Definition findAnnotationForMessage
    (threadAnnotations : option ThreadAnnotations) (m : ChatMessage)
  : option (string * Annotation) :=
  match threadAnnotations with
  | None => None
  | Some es => findInEntries es m
  end.

(** The two maps the passes mutate. *)
Record Threads := mkThreads {
  messageThreads : gmap string (list ChatMessage);
  threadAnnotationMap : gmap string string
}.

(** [if (!messageThreads.has(t)) messageThreads.set(t, []);
     messageThreads.get(t)?.push(message)] *)
Definition pushTo (t : string) (m : ChatMessage)
    (mt : gmap string (list ChatMessage)) : gmap string (list ChatMessage) :=
  match mt !! t with
  | None => <[t := [m]]> mt
  | Some g => <[t := g ++ [m]]> mt
  end.

(** First pass: the message lookup map. *)
Definition buildMessageMap (allMessages : list ChatMessage)
  : gmap string ChatMessage :=
  foldl (fun mm m => <[messageKey m := m]> mm) ∅ allMessages.

(** Body of the second pass. *)
Definition annotateStep (anns : option ThreadAnnotations)
    (st : Threads) (m : ChatMessage) : Threads :=
  match findAnnotationForMessage anns m with
  | Some (threadId, _) =>
      {| messageThreads := pushTo threadId m (messageThreads st);
         threadAnnotationMap :=
           <[messageKey m := threadId]> (threadAnnotationMap st) |}
  | None => st
  end.

(** Body of the third pass. *)
Definition replyStep (messageMap : gmap string ChatMessage)
    (st : Threads) (m : ChatMessage) : Threads :=
  match threadAnnotationMap st !! messageKey m with
  | Some _ => st
  | None =>
      match reply_to_turn m with
      | None => st
      | Some r =>
          if JS.truthy r then
            match messageMap !! r with
            | None => st
            | Some parentMessage =>
                match threadAnnotationMap st !! messageKey parentMessage with
                | None => st
                | Some parentThreadId =>
                    if JS.truthy parentThreadId then
                      {| messageThreads :=
                           pushTo parentThreadId m (messageThreads st);
                         threadAnnotationMap :=
                           <[messageKey m := parentThreadId]>
                             (threadAnnotationMap st) |}
                    else st
                end
            end
          else st
      end
  end.

Definition emptyThreads : Threads :=
  {| messageThreads := ∅; threadAnnotationMap := ∅ |}.

Definition secondPass (anns : option ThreadAnnotations)
    (allMessages : list ChatMessage) : Threads :=
  foldl (annotateStep anns) emptyThreads allMessages.

Definition thirdPass (anns : option ThreadAnnotations)
    (allMessages : list ChatMessage) : Threads :=
  foldl (replyStep (buildMessageMap allMessages))
        (secondPass anns allMessages) allMessages.

(** [allMessages.filter(m => !threadAnnotationMap.has(key m))] *)
Definition unthreadedMessages (anns : option ThreadAnnotations)
    (allMessages : list ChatMessage) : list ChatMessage :=
  filter
    (λ m, threadAnnotationMap (thirdPass anns allMessages) !! messageKey m
          = None)
    allMessages.

(** The thread a turn ends up in: its entry of [threadAnnotationMap]. *)
Definition threadOf (anns : option ThreadAnnotations)
    (allMessages : list ChatMessage) (m : ChatMessage) : option string :=
  threadAnnotationMap (thirdPass anns allMessages) !! messageKey m.

(** The thread id of the annotation found for a turn, if any. *)
Definition annotatedThread (anns : option ThreadAnnotations)
    (m : ChatMessage) : option string :=
  fst <$> findAnnotationForMessage anns m.

(** [new Date(a.timestamp || a.created_at).getTime()], with the parsing of
    date strings ([getTime]) left as a parameter: the milliseconds of a
    valid date, [None] for the NaN of an invalid one. *)
Definition messageTime (getTime : string -> option Z) (m : ChatMessage)
  : option Z :=
  getTime (JS.or_else (timestamp m) (created_at m)).

(** The comparator [(a, b) => aTime - bTime] as [Array.prototype.sort]
    reads it: the sign of the difference, a NaN difference counting as
    zero. *)
Definition compareTime (getTime : string -> option Z) (a b : ChatMessage)
  : Z :=
  match messageTime getTime a, messageTime getTime b with
  | Some x, Some y => x - y
  | _, _ => 0
  end.

(** Both dates are valid and the first is not later than the second. *)
Definition timeLe (getTime : string -> option Z) (a b : ChatMessage) : Prop :=
  match messageTime getTime a, messageTime getTime b with
  | Some x, Some y => (x <= y)%Z
  | _, _ => False
  end.

(** [messages.sort((a, b) => aTime - bTime)].  [Array.prototype.sort] is
    stable, so for valid dates, where the comparator is a consistent
    order, the result is the stable sort by time, which the insertion
    below computes.  With an invalid date the comparator is not
    consistent and the order is left to the engine: the result is then
    used as a rearrangement of the group only. *)
Fixpoint insertByTime (getTime : string -> option Z) (m : ChatMessage)
    (l : list ChatMessage) : list ChatMessage :=
  match l with
  | [] => [m]
  | x :: l' =>
      if (compareTime getTime m x <=? 0)%Z
      then m :: x :: l'
      else x :: insertByTime getTime m l'
  end.

Fixpoint sortByTime (getTime : string -> option Z) (l : list ChatMessage)
  : list ChatMessage :=
  match l with
  | [] => []
  | m :: l' => insertByTime getTime m (sortByTime getTime l')
  end.

(** [messageThreads] after the final [forEach] that sorts every group. *)
Definition threadGroups (getTime : string -> option Z)
    (anns : option ThreadAnnotations) (allMessages : list ChatMessage)
  : gmap string (list ChatMessage) :=
  sortByTime getTime <$> messageThreads (thirdPass anns allMessages).

(** What the render reads from the assembly: the thread groups and the
    list of unthreaded messages. *)
Record View := mkView {
  threads : gmap string (list ChatMessage);
  unthreaded : list ChatMessage
}.

Definition view (getTime : string -> option Z)
    (anns : option ThreadAnnotations) (allMessages : list ChatMessage)
  : View :=
  {| threads := threadGroups getTime anns allMessages;
     unthreaded := unthreadedMessages anns allMessages |}.

(** The messages listed before [m]: those a [forEach] over the list has
    visited when it reaches [m]. *)
Fixpoint before (m : ChatMessage) (l : list ChatMessage)
  : list ChatMessage :=
  match l with
  | [] => []
  | x :: l' => if decide (x = m) then [] else x :: before m l'
  end.

Definition listedBefore (p m : ChatMessage) (l : list ChatMessage) : bool :=
  bool_decide (p ∈ before m l).

(** Two list orders of the same messages treat inheritance alike: every
    reply without an annotation of its own is listed on the same side of
    the turn it replies to in both, whenever that turn has no annotation
    of its own and is threaded in one of the two orders. *)
Definition sameInheritanceOrder (anns : option ThreadAnnotations)
    (msgs1 msgs2 : list ChatMessage) : bool :=
  forallb (λ m,
    forallb (λ p,
      bool_decide (is_Some (annotatedThread anns m))
      || bool_decide (is_Some (annotatedThread anns p))
      || negb (bool_decide (reply_to_turn m = Some (messageKey p)))
      || bool_decide (threadOf anns msgs1 p = None)
         && bool_decide (threadOf anns msgs2 p = None)
      || bool_decide (listedBefore p m msgs1 = listedBefore p m msgs2))
      msgs1)
    msgs1.

(** [cs] is a reply chain hanging below [parent]: each turn is loaded,
    has no annotation of its own and replies to the one before it. *)
Fixpoint replyChain (anns : option ThreadAnnotations)
    (allMessages : list ChatMessage) (parent : ChatMessage)
    (cs : list ChatMessage) : bool :=
  match cs with
  | [] => true
  | c :: cs' =>
      bool_decide (c ∈ allMessages)
      && bool_decide (annotatedThread anns c = None)
      && bool_decide (reply_to_turn c = Some (messageKey parent))
      && replyChain anns allMessages c cs'
  end.

(** Every turn of [cs] but the first is listed after the one before it. *)
Fixpoint listedInOrder (allMessages : list ChatMessage)
    (cs : list ChatMessage) : bool :=
  match cs with
  | c :: (d :: _) as cs' =>
      listedBefore c d allMessages && listedInOrder allMessages cs'
  | _ => true
  end.

(** [cyc] is a set of loaded turns without annotation in which every
    turn replies to a turn of the set: the turns of reply cycles of any
    length, and the turns whose chain of parents leads into one. *)
Definition closedUnderReplies (anns : option ThreadAnnotations)
    (allMessages cyc : list ChatMessage) : Prop :=
  Forall (λ c, c ∈ allMessages
               ∧ annotatedThread anns c = None
               ∧ Exists (λ p, reply_to_turn c = Some (messageKey p)) cyc)
         cyc.

(** The thread of the parent as the third pass reads it when the thread
    map is [tam]: the reply reference must be truthy, the parent loaded,
    and its thread id truthy. *)
Definition parentThread (messageMap : gmap string ChatMessage)
    (tam : gmap string string) (m : ChatMessage) : option string :=
  r ← reply_to_turn m;
  if JS.truthy r then
    parentMessage ← messageMap !! r;
    parentThreadId ← tam !! messageKey parentMessage;
    if JS.truthy parentThreadId then Some parentThreadId else None
  else None.

(** The thread the third pass gives a turn when the thread map is [tam]
    (the decision of [replyStep], without the update). *)
Definition inheritFrom (messageMap : gmap string ChatMessage)
    (tam : gmap string string) (m : ChatMessage) : option string :=
  match tam !! messageKey m with
  | Some _ => None
  | None => parentThread messageMap tam m
  end.

(** A group after more pushes: [l] appended to the array already there;
    no array is created when nothing is pushed. *)
Definition appendGroup {A} (o : option (list A)) (l : list A)
  : option (list A) :=
  match l with
  | [] => o
  | _ => Some (default [] o ++ l)
  end.

(** The turns the second pass pushes to thread [t], in list order. *)
Definition explicitIn (anns : option ThreadAnnotations)
    (allMessages : list ChatMessage) (t : string) : list ChatMessage :=
  filter (λ m, annotatedThread anns m = Some t) allMessages.

(** The turns without annotation that end up in thread [t], in list
    order. *)
Definition inheritedIn (anns : option ThreadAnnotations)
    (allMessages : list ChatMessage) (t : string) : list ChatMessage :=
  filter (λ m, annotatedThread anns m = None
               ∧ threadOf anns allMessages m = Some t) allMessages.

(** Where the passes put a turn: in the group of its own annotation, or,
    when it has none, in the group its key is mapped to. *)
Definition placed (anns : option ThreadAnnotations) (st : Threads)
    (t : string) (x : ChatMessage) : Prop :=
  annotatedThread anns x = Some t
  ∨ (annotatedThread anns x = None
     ∧ threadAnnotationMap st !! messageKey x = Some t).

(** Every annotated turn of [msgs] has its key in the thread map. *)
Definition annotatedMapped (anns : option ThreadAnnotations)
    (msgs : list ChatMessage) (st : Threads) : Prop :=
  ∀ m, m ∈ msgs → annotatedThread anns m ≠ None →
       threadAnnotationMap st !! messageKey m ≠ None.

End ChatView.

(** ** The import page ([ImportPage], [importCSV]) *)

Module ImportPage.

Record CSVPreview := mkPreview {
  headers : list string;
  rows : list (list string);
  filename : string
}.

(** The component state read by [importAllFiles]: the selected files (by
    name), their previews, the column mappings and the project chosen in
    the form. *)
Record PageState := mkPage {
  files : list string;
  csvPreviews : list CSVPreview;
  mappings : gmap string string;
  projectId : string
}.


(** The [column_mapping] object built by [importCSV]. *)
Record ColumnMapping := mkColumnMapping {
  cm_content : option string;
  cm_type : option string;
  cm_metadata : gmap string string
}.




(** The import config of [importCSV]: [content] and [type] are read from
    the mapping, every other entry goes to [metadata]. *)
Definition importCSV_config (columnMapping : gmap string string)
  : ColumnMapping :=
  {| cm_content := columnMapping !! "content";
     cm_type := columnMapping !! "type";
     cm_metadata :=
       filter (λ kv, kv.1 ≠ "content" ∧ kv.1 ≠ "type") columnMapping |}.


End ImportPage.

(** ** The two annotation-creation flows *)

Module AnnotationForm.

(** The form values read on submit. *)
Record FormValues := mkForm {
  thread_id : string;
  confidence : float;
  notes : string;
  tag : string
}.

(** The argument of [createAnnotationMutation.mutate]. *)
Record MutationData := mkData {
  d_itemId : Z;
  d_thread_id : string;
  d_confidence : float;
  d_notes : string
}.

(** The argument of [createAnnotation], whose [confidence] is posted
    unchanged. *)
Record CreateAnnotation := mkCreate {
  c_item_id : Z;
  c_thread_id : string;
  c_confidence : float;
  c_notes : string
}.

(** The [confidence] validator shared by both forms:
    [value < 0 || value > 100] is an error. *)
Definition confidenceValid (value : float) : bool :=
  negb (PrimFloat.ltb value 0 || PrimFloat.ltb 100 value).

(** A character accepted by [/^[a-zA-Z0-9_-]+$/]. *)
Definition threadIdChar (c : ascii) : bool :=
  let n := nat_of_ascii c in
  ((97 <=? n) && (n <=? 122) || (65 <=? n) && (n <=? 90)
   || (48 <=? n) && (n <=? 57) || (n =? 95) || (n =? 45))%nat.

(** The validators of the admin UI copy. *)
Definition validate_copy (values : FormValues) : bool :=
  JS.truthy (thread_id values)
  && forallb threadIdChar (list_ascii_of_string (thread_id values))
  && confidenceValid (confidence values)
  && JS.truthy (tag values).

(** The validators of the other ChatView. *)
Definition validate_variant (values : FormValues) : bool :=
  JS.truthy (thread_id values)
  && confidenceValid (confidence values)
  && JS.truthy (tag values).

(** [mutationFn] is the same in both files: [data.confidence / 100]. *)
Definition mutationFn (data : MutationData) : CreateAnnotation :=
  {| c_item_id := d_itemId data;
     c_thread_id := d_thread_id data;
     c_confidence := PrimFloat.div (d_confidence data) 100;
     c_notes := d_notes data |}.

(** [handleCreateAnnotation] of [annotation-admin-ui-copy]: after the
    validation of [form.onSubmit], it passes [values.confidence] on. *)
Definition handleCreateAnnotation_copy (selectedMessage : option ChatMessage)
    (values : FormValues) : option CreateAnnotation :=
  if validate_copy values then
    match selectedMessage with
    | None => None
    | Some msg =>
        Some (mutationFn
                {| d_itemId := id msg;
                   d_thread_id := thread_id values;
                   d_confidence := confidence values;
                   d_notes := notes values |})
    end
  else None.

(** [handleCreateAnnotation] of the other ChatView: after the validation
    of [form.onSubmit], it passes [values.confidence / 100] on. *)
Definition handleCreateAnnotation_variant
    (selectedMessage : option ChatMessage)
    (values : FormValues) : option CreateAnnotation :=
  if validate_variant values then
    match selectedMessage with
    | None => None
    | Some msg =>
        Some (mutationFn
                {| d_itemId := id msg;
                   d_thread_id := thread_id values;
                   d_confidence := PrimFloat.div (confidence values) 100;
                   d_notes := notes values |})
    end
  else None.

End AnnotationForm.

(** ** Sample data *)

Module Scenario.

Definition turn (i : Z) (t : string) (r : option string) (ts : string)
  : ChatMessage :=
  {| id := i; turn_id := t; user_id := "u1"; content := "";
     reply_to_turn := r; timestamp := ts; created_at := ts |}.

Definition label (t : string) (created : string) (src : string)
  : Annotation :=
  {| a_turn_id := t; a_confidence := 1%float; a_notes := "";
     a_created_at := created; a_source := src |}.

(** The chain t1 <- t2 <- t3 with t1 labelled A. *)
Definition t1 := turn 1 "t1" None "2024-01-01T00:00:00Z".
Definition t2 := turn 2 "t2" (Some "t1") "2024-01-01T00:00:01Z".
Definition t3 := turn 3 "t3" (Some "t2") "2024-01-01T00:00:02Z".
Definition t4 := turn 4 "t4" (Some "t1") "2024-01-01T00:00:03Z".
Definition labelA : option ThreadAnnotations :=
  Some [("A", [label "t1" "1" "manual"])].

(** Two annotations on t2: an older imported one and a newer manual one. *)
Definition importX := label "t2" "1" "import".
Definition manualY := label "t2" "2" "manual".
Definition duplicates : option ThreadAnnotations :=
  Some [("X", [importX]); ("Y", [manualY])].

(** A reply cycle A <-> B without annotations. *)
Definition cycA := turn 10 "A" (Some "B") "2024-01-02T00:00:00Z".
Definition cycB := turn 11 "B" (Some "A") "2024-01-02T00:00:01Z".
Definition noLabels : option ThreadAnnotations := Some [].

(** a <- b <- c <- d with a labelled X and b labelled Y. *)
Definition ta := turn 20 "a" None "2024-01-03T00:00:00Z".
Definition tb := turn 21 "b" (Some "a") "2024-01-03T00:00:01Z".
Definition tc := turn 22 "c" (Some "b") "2024-01-03T00:00:02Z".
Definition td := turn 23 "d" (Some "c") "2024-01-03T00:00:03Z".
Definition labelsXY : option ThreadAnnotations :=
  Some [("X", [label "a" "1" "manual"]); ("Y", [label "b" "2" "manual"])].

(** g <- p <- c with g labelled A; p is loaded after c. *)
Definition tg := turn 30 "g" None "2024-01-04T00:00:00Z".
Definition tp := turn 31 "p" (Some "g") "2024-01-04T00:00:01Z".
Definition tw := turn 32 "w" (Some "p") "2024-01-04T00:00:02Z".
Definition labelG : option ThreadAnnotations :=
  Some [("A", [label "g" "1" "manual"])].

(** [new Date(s).getTime()] on the timestamps of the sample turns, which
    are of the form 2024-01-0dT00:00:0sZ with d from 1 to 9; no other date
    string occurs in the samples, and a string of another form counts as
    an invalid date. *)
Definition digit (s : string) : option Z :=
  match s with
  | String c EmptyString =>
      let n := Z.of_nat (nat_of_ascii c) in
      if (48 <=? n)%Z && (n <=? 57)%Z then Some (n - 48)%Z else None
  | _ => None
  end.

Definition epoch (s : string) : option Z :=
  if bool_decide (String.length s = 20%nat)
     && bool_decide (substring 0 9 s = "2024-01-0")
     && bool_decide (substring 10 8 s = "T00:00:0")
     && bool_decide (substring 19 1 s = "Z")
  then
    day ← digit (substring 9 1 s);
    sec ← digit (substring 18 1 s);
    if (1 <=? day)%Z
    then Some (1704067200000 + (day - 1) * 86400000 + sec * 1000)%Z
    else None
  else None.

(** A labelled root, a reply that inherits and a labelled turn with the
    same timestamp as the reply. *)
Definition s0 := turn 40 "s0" None "2024-01-05T00:00:00Z".
Definition s1 := turn 41 "s1" (Some "s0") "2024-01-05T00:00:01Z".
Definition s2 := turn 42 "s2" None "2024-01-05T00:00:01Z".
Definition labelS : option ThreadAnnotations :=
  Some [("A", [label "s0" "1" "manual"; label "s2" "2" "manual"])].

(** Two loaded messages with the same turn id; the annotation refers to
    the first by its message id. *)
Definition k1 := turn 1 "k" None "2024-01-05T00:00:00Z".
Definition k2 := turn 2 "k" None "2024-01-05T00:00:01Z".
Definition labelK : option ThreadAnnotations :=
  Some [("X", [label "1" "1" "manual"])].

(** An import page whose first file has a [turn_text] column and whose
    mappings are empty. *)
Definition page : ImportPage.PageState :=
  ImportPage.mkPage ["chat.csv"]
    [ImportPage.mkPreview ["turn_text"; "user"] [] "chat.csv"] ∅ "1".


(** The annotation form filled with thread A and a confidence of 50. *)
Definition form50 : AnnotationForm.FormValues :=
  AnnotationForm.mkForm "A" 50 "" "CHAT".

End Scenario.

(** ** String and number primitives of the other functions *)

(** Strings are sequences of code units below 256. *)
Module JSString.

(** The white space and line terminator code units of
    [String.prototype.trim]: TAB, LF, VT, FF, CR, SP and NBSP. *)
Definition isWhiteSpace (c : ascii) : bool :=
  let n := nat_of_ascii c in
  ((9 <=? n) && (n <=? 13) || (n =? 32) || (n =? 160))%nat.

Fixpoint trimStart (s : string) : string :=
  match s with
  | EmptyString => EmptyString
  | String c s' => if isWhiteSpace c then trimStart s' else s
  end.

Fixpoint trimEnd (s : string) : string :=
  match s with
  | EmptyString => EmptyString
  | String c s' =>
      match trimEnd s' with
      | EmptyString => if isWhiteSpace c then EmptyString else String c EmptyString
      | r => String c r
      end
  end.

(** [String.prototype.trim] *)
Definition trim (s : string) : string := trimEnd (trimStart s).

(** Lower case of one code unit: A-Z and the upper case letters of the
    Latin-1 supplement. *)
Definition toLowerChar (c : ascii) : ascii :=
  let n := nat_of_ascii c in
  if ((65 <=? n) && (n <=? 90) || (192 <=? n) && (n <=? 214)
      || (216 <=? n) && (n <=? 222))%nat
  then ascii_of_nat (n + 32)
  else c.

(** [String.prototype.toLowerCase] *)
Fixpoint toLowerCase (s : string) : string :=
  match s with
  | EmptyString => EmptyString
  | String c s' => String (toLowerChar c) (toLowerCase s')
  end.

(** [s.includes(needle)]: [needle] occurs in [s] as a substring. *)
Fixpoint includes (s needle : string) : bool :=
  String.prefix needle s
  || match s with
     | EmptyString => false
     | String _ s' => includes s' needle
     end.

(** [s.split(sep)] for a one-character separator, with the piece read so
    far in [current]. *)
Fixpoint splitFrom (sep : ascii) (current : string) (s : string)
  : list string :=
  match s with
  | EmptyString => [current]
  | String c s' =>
      if Ascii.eqb c sep then current :: splitFrom sep EmptyString s'
      else splitFrom sep (current +:+ String c EmptyString) s'
  end.

Definition split (sep : ascii) (s : string) : list string :=
  splitFrom sep EmptyString s.

(** [fields.join(sep)] for a one-character separator. *)
Fixpoint join (sep : ascii) (fields : list string) : string :=
  match fields with
  | [] => EmptyString
  | [f] => f
  | f :: rest => f +:+ String sep (join sep rest)
  end.

End JSString.

Module JSMath.

(** The double with the value of an integer below 2^53 in magnitude. *)
Definition ofZ (z : Z) : float :=
  match z with
  | Z0 => PrimFloat.zero
  | Zpos _ => PrimFloat.of_uint63 (Uint63.of_Z z)
  | Zneg p => PrimFloat.opp (PrimFloat.of_uint63 (Uint63.of_Z (Zpos p)))
  end.

(** [Math.round]: the nearest integer, ties towards plus infinity.  NaN,
    the infinities, the zeros and integral values are returned as they
    are; a negative argument that rounds to zero gives minus zero. *)
Definition round (x : float) : float :=
  match Prim2SF x with
  | S754_finite s m e =>
      if (e <? 0)%Z then
        let d := (2 ^ (- e))%Z in
        let n := if s then Zneg m else Zpos m in
        let r := ((2 * n + d) / (2 * d))%Z in
        if (r =? 0)%Z && s then PrimFloat.opp PrimFloat.zero else ofZ r
      else x
  | _ => x
  end.

End JSMath.

(** ** Loading the messages ([useInfiniteQuery] of the chat view) *)

Module MessagesQuery.

(** A message as the server sends it: the [Message] fields, each optional
    one possibly absent. *)
Record Fetched := mkFetched {
  f_id : Z;
  f_turn_id : option string;
  f_user_id : option string;
  f_content : option string;
  f_reply_to_turn : option string;
  f_type : option string;
  f_created_at : option string;
  f_container_id : Z;
  f_meta_data : option (list (string * string));
  f_timestamp : option string
}.

(** [a || b] when [a] may be absent. *)
Definition orElse (a : option string) (b : string) : string :=
  match a with
  | Some s => JS.or_else s b
  | None => b
  end.

(** A message after the [map] of [queryFn]: the fields the view reads and
    the two it only carries along. *)
Record Loaded := mkLoaded {
  message : ChatMessage;
  l_type : string;
  l_meta_data : list (string * string);
  l_container_id : Z
}.

(** The [map] of [queryFn]; [now] and [now'] are the two values of
    [new Date().toISOString()]. *)
Definition normalize (now now' : string) (f : Fetched) : Loaded :=
  {| message :=
       {| id := f_id f;
          turn_id := orElse (f_turn_id f) (JS.toString (f_id f));
          user_id := orElse (f_user_id f) "unknown";
          content := orElse (f_content f) "";
          reply_to_turn := f_reply_to_turn f;
          timestamp :=
            orElse (f_timestamp f) (orElse (f_created_at f) now');
          created_at := orElse (f_created_at f) now |};
     l_type := orElse (f_type f) "chat_message";
     l_meta_data := default [] (f_meta_data f);
     l_container_id := f_container_id f |}.

Definition PAGE_SIZE : nat := 20.

(** The [limit] and [offset] parameters [getMessages] puts in the URL. *)
Record PageRequest := mkRequest { limit : nat; offset : nat }.

Definition getMessages_request (page : nat) : PageRequest :=
  {| limit := PAGE_SIZE; offset := (page * PAGE_SIZE)%nat |}.

(** [getNextPageParam]; [None] is [undefined], no further page. *)
Definition getNextPageParam {A} (lastPage : list A)
    (allPages : list (list A)) : option nat :=
  if (length lastPage =? PAGE_SIZE)%nat then Some (length allPages) else None.

(** [useInfiniteQuery]: the first fetch uses [initialPageParam] 0, and
    [fetchNextPage] appends the page [getNextPageParam] asks for, if any.
    [server] answers a request. *)
Definition fetchNextPage {A} (server : PageRequest → list A)
    (pages : list (list A)) : list (list A) :=
  match last pages with
  | None => [server (getMessages_request 0)]
  | Some lastPage =>
      match getNextPageParam lastPage pages with
      | Some page => pages ++ [server (getMessages_request page)]
      | None => pages
      end
  end.

(** [hasNextPage] *)
Definition hasNextPage {A} (pages : list (list A)) : bool :=
  match last pages with
  | None => false
  | Some lastPage => bool_decide (is_Some (getNextPageParam lastPage pages))
  end.

(** The pages after the first fetch and [n] clicks on Load More. *)
Fixpoint loadPages {A} (server : PageRequest → list A) (n : nat)
  : list (list A) :=
  match n with
  | O => fetchNextPage server []
  | S n' => fetchNextPage server (loadPages server n')
  end.

(** [messages.pages.flat()] *)
Definition allMessages {A} (pages : list (list A)) : list A := concat pages.

(** A server that answers with the slice of the stored items. *)
Definition slices {A} (items : list A) (server : PageRequest → list A)
  : Prop :=
  ∀ r, server r = take (limit r) (drop (offset r) items).

(** The [k] first slices of [PAGE_SIZE] items. *)
Definition slicesUpTo {A} (items : list A) (k : nat) : list (list A) :=
  (λ i, take PAGE_SIZE (drop (i * PAGE_SIZE) items)) <$> seq 0 k.

End MessagesQuery.

(** ** The annotation dialog of the chat view *)

Module AnnotateDialog.

(** [handleAnnotate]: the form is pre-filled from the annotation found for
    the message, or reset to its defaults. *)
Definition handleAnnotate (threadAnnotations : option ThreadAnnotations)
    (m : ChatMessage) : AnnotationForm.FormValues :=
  match ChatView.findAnnotationForMessage threadAnnotations m with
  | Some (threadId, existing) =>
      {| AnnotationForm.thread_id := threadId;
         AnnotationForm.confidence :=
           JSMath.round (PrimFloat.mul (a_confidence existing) 100);
         AnnotationForm.notes := JS.or_else (a_notes existing) "";
         AnnotationForm.tag := "CHAT" |}
  | None =>
      {| AnnotationForm.thread_id := "";
         AnnotationForm.confidence := PrimFloat.zero;
         AnnotationForm.notes := "";
         AnnotationForm.tag := "CHAT" |}
  end.

(** The body [createAnnotation] of the admin UI copy posts. *)
Record PostedBody := mkBody {
  b_type : string;
  b_thread_id : string;
  b_confidence : float;
  b_notes : option string;
  b_tag : string
}.

(** [data.notes?.trim() || undefined] *)
Definition postedNotes (notes : string) : option string :=
  if JS.truthy (JSString.trim notes) then Some (JSString.trim notes) else None.

Definition createAnnotation_body (data : AnnotationForm.CreateAnnotation)
  : PostedBody :=
  {| b_type := "thread";
     b_thread_id := JSString.trim (AnnotationForm.c_thread_id data);
     b_confidence := AnnotationForm.c_confidence data;
     b_notes := postedNotes (AnnotationForm.c_notes data);
     b_tag := "CHAT" |}.

End AnnotateDialog.

(** ** Reading the CSV files of the import page *)

Module CsvImport.

Definition quote : ascii := ascii_of_nat 34.
Definition comma : ascii := ascii_of_nat 44.
Definition newline : ascii := ascii_of_nat 10.

(** The loop of [parseCSVLine], with the field read so far in [current]. *)
Fixpoint parseCSVLineFrom (current : string) (inQuotes : bool)
    (line : string) : list string :=
  match line with
  | EmptyString => [JSString.trim current]
  | String char rest =>
      if Ascii.eqb char quote then
        parseCSVLineFrom current (negb inQuotes) rest
      else if Ascii.eqb char comma && negb inQuotes then
        JSString.trim current :: parseCSVLineFrom EmptyString inQuotes rest
      else
        parseCSVLineFrom (current +:+ String char EmptyString) inQuotes rest
  end.

Definition parseCSVLine (line : string) : list string :=
  parseCSVLineFrom EmptyString false line.

(** [text.split('\n').filter(line => line.trim().length > 0)] *)
Definition nonBlankLines (text : string) : list string :=
  filter (λ line, JSString.trim line ≠ EmptyString)
         (JSString.split newline text).

(** The [onload] handler of [parseCSV]: [None] when the promise is
    rejected for lack of a header row and a data row. *)
Definition parseCSVText (name text : string) : option ImportPage.CSVPreview :=
  let lines := nonBlankLines text in
  if (length lines <? 2)%nat then None
  else
    Some {| ImportPage.headers := parseCSVLine (default EmptyString (head lines));
            ImportPage.rows := parseCSVLine <$> take 5 (drop 1 lines);
            ImportPage.filename := name |}.

(** A selected file: its name, and its text unless reading it fails. *)
Record SelectedFile := mkFile {
  file_name : string;
  file_text : option string
}.

(** [parseCSV]: rejected when the reader fails or the text is too short. *)
Definition parseCSV (f : SelectedFile) : option ImportPage.CSVPreview :=
  text ← file_text f; parseCSVText (file_name f) text.

(** [knownMappings], in the order of its entries. *)
Definition knownMappings : list (string * string) :=
  [ ("content", "content"); ("text", "content"); ("message", "content");
    ("turn_text", "content");
    ("user_id", "user_id"); ("user", "user_id"); ("username", "user_id");
    ("author", "user_id");
    ("turn_id", "turn_id"); ("message_id", "turn_id"); ("id", "turn_id");
    ("reply_to", "reply_to_turn"); ("reply_to_turn", "reply_to_turn");
    ("parent_id", "reply_to_turn");
    ("timestamp", "timestamp"); ("created_at", "timestamp");
    ("date", "timestamp");
    ("title", "title"); ("name", "title"); ("heading", "title");
    ("category", "category"); ("type", "category"); ("class", "category");
    ("source", "source"); ("origin", "source"); ("from", "source") ].

(** [lowerHeader === key || lowerHeader.includes(key)] *)
Definition headerMatches (lowerHeader : string) (entry : string * string)
  : bool :=
  bool_decide (lowerHeader = entry.1) || JSString.includes lowerHeader entry.1.

(** The inner loop of [createAutomaticMappings]: the target field of the
    first known entry that matches the header. *)
Definition mappedField (header : string) : option string :=
  snd <$> ChatView.find
            (headerMatches (JSString.trim (JSString.toLowerCase header)))
            knownMappings.

(** [createAutomaticMappings]: the object given to [setMappings]. *)
Definition createAutomaticMappings (preview : ImportPage.CSVPreview)
  : gmap string string :=
  foldl (λ autoMappings header,
           match mappedField header with
           | Some field => <[header := field]> autoMappings
           | None => autoMappings
           end)
        ∅ (ImportPage.headers preview).


End CsvImport.

(** ** The request interceptor of the API client *)

Module ApiClient.

(** The two items of [localStorage] the client touches. *)
Record Storage := mkStorage {
  token : option string;
  user : option string
}.

(** The payload of a token, as far as [isTokenExpired] reads it: [exp], a
    whole number of seconds; [None] when the payload has no [exp]. *)
Record Payload := mkPayload { exp : option Z }.

(** [isTokenExpired] at time [now] (milliseconds); [decode] stands for
    splitting the token, [atob] and [JSON.parse], and gives [None] when one
    of them throws.  A payload without [exp] compares with NaN and is never
    expired. *)
Definition isTokenExpired (decode : string → option Payload) (now : Z)
    (tok : string) : bool :=
  match decode tok with
  | None => true
  | Some payload =>
      match exp payload with
      | None => false
      | Some e => (e * 1000 <=? now)%Z
      end
  end.

(** The request interceptor: the [Authorization] header it sets, if any,
    and the storage it leaves.  The clock is read at [now1] by the first
    call of [isTokenExpired] and at [now2] by the second. *)
Definition onRequest (decode : string → option Payload) (now1 now2 : Z)
    (st : Storage) : option string * Storage :=
  match token st with
  | None => (None, st)
  | Some tok =>
      if JS.truthy tok then
        if negb (isTokenExpired decode now1 tok) then
          (Some ("Bearer " +:+ tok), st)
        else if isTokenExpired decode now2 tok then
          (None, {| token := None; user := None |})
        else (None, st)
      else (None, st)
  end.

End ApiClient.

(** ** Further sample data *)

Module Sample.

Definition csvFile : CsvImport.SelectedFile :=
  CsvImport.mkFile "chat.csv"
    (Some (JSString.join CsvImport.newline
             ["turn_id,text,parent_id"; "1,hello,"; "2,hi there,1"; ""])).


(** Forty-five stored items and a server answering with slices of them. *)
Definition stored : list nat := seq 0 45.

Definition sliceServer (r : MessagesQuery.PageRequest) : list nat :=
  take (MessagesQuery.limit r) (drop (MessagesQuery.offset r) stored).

(** Two messages sent without turn id. *)
Definition bare (i : Z) : MessagesQuery.Fetched :=
  MessagesQuery.mkFetched i None (Some "u1") (Some "hello") None None
    (Some "2024-01-01T00:00:00Z") 1 None None.

Definition storedPayload (tok : string) : option ApiClient.Payload :=
  if bool_decide (tok = "old") then Some (ApiClient.mkPayload (Some 100))
  else if bool_decide (tok = "new") then Some (ApiClient.mkPayload (Some 900))
  else None.

End Sample.

Import ChatView.

(** ** Facts about the JavaScript primitives *)

Lemma toString_nonempty (n : Z) : JS.toString n ≠ "".
Proof.
  unfold JS.toString, NilZero.string_of_int, NilZero.string_of_uint.
  destruct (Z.to_int n) as [d|d]; [|discriminate].
  destruct d; discriminate.
Qed.

Lemma truthy_true (s : string) : JS.truthy s = true ↔ s ≠ "".
Proof.
  unfold JS.truthy. rewrite negb_true_iff, bool_decide_eq_false. done.
Qed.

Lemma messageKey_truthy (m : ChatMessage) : JS.truthy (messageKey m) = true.
Proof.
  unfold messageKey, JS.or_else.
  destruct (JS.truthy (turn_id m)) eqn:E; [done|].
  apply truthy_true, toString_nonempty.
Qed.

(** ** The annotation lookup *)

Lemma find_Some {A} (p : A -> bool) (l : list A) (a : A) :
  find p l = Some a ↔
  ∃ l1 l2, l = l1 ++ a :: l2 ∧ p a = true ∧ Forall (λ x, p x = false) l1.
Proof.
  induction l as [|x l IH]; simpl.
  - split; [done|]. intros (l1 & l2 & H & _). by destruct l1.
  - destruct (p x) eqn:E.
    + split.
      * intros [= <-]. by exists [], l.
      * intros (l1 & l2 & H & Ha & Hl1). destruct l1 as [|y l1].
        -- by injection H as -> _.
        -- injection H as -> _. inversion Hl1; congruence.
    + rewrite IH. split.
      * intros (l1 & l2 & -> & Ha & Hl1). exists (x :: l1), l2.
        split; [done|]. split; [done|]. by constructor.
      * intros (l1 & l2 & H & Ha & Hl1). destruct l1 as [|y l1].
        -- injection H as -> _. congruence.
        -- injection H as -> ->. exists l1, l2. by inversion Hl1.
Qed.

Lemma find_None {A} (p : A -> bool) (l : list A) :
  find p l = None ↔ Forall (λ x, p x = false) l.
Proof.
  induction l as [|x l IH]; simpl.
  - split; [constructor|done].
  - destruct (p x) eqn:E.
    + split; [done|]. inversion 1; congruence.
    + rewrite IH. split; [by constructor|by inversion 1].
Qed.

Lemma findInEntries_Some (es : ThreadAnnotations) (m : ChatMessage)
    (t : string) (a : Annotation) :
  findInEntries es m = Some (t, a) ↔
  ∃ es1 g es2,
    es = es1 ++ (t, g) :: es2
    ∧ Forall (λ e, find (matchesMessage m) e.2 = None) es1
    ∧ find (matchesMessage m) g = Some a.
Proof.
  induction es as [|[t0 g0] es IH]; simpl.
  - split; [done|]. intros (es1 & g & es2 & H & _). by destruct es1.
  - destruct (find (matchesMessage m) g0) as [a0|] eqn:E.
    + split.
      * intros [= <- <-]. by exists [], g0, es.
      * intros (es1 & g & es2 & H & Hes1 & Hg). destruct es1 as [|e es1].
        -- injection H as -> -> _. congruence.
        -- injection H as <- _. inversion Hes1; simplify_eq/=.
    + rewrite IH. split.
      * intros (es1 & g & es2 & -> & Hes1 & Hg).
        exists ((t0, g0) :: es1), g, es2. split; [done|]. split; [|done].
        by constructor.
      * intros (es1 & g & es2 & H & Hes1 & Hg). destruct es1 as [|e es1].
        -- injection H as -> -> _. congruence.
        -- injection H as _ ->. exists es1, g, es2. by inversion Hes1.
Qed.

(** ** The passes over the loaded messages *)

Lemma filter_ext_elem {A} (P1 P2 : A → Prop)
    `{!∀ x, Decision (P1 x), !∀ x, Decision (P2 x)} (l : list A) :
  (∀ x, x ∈ l → P1 x ↔ P2 x) → filter P1 l = filter P2 l.
Proof.
  induction l as [|a l IH]; intros Hext; [done|].
  rewrite !filter_cons.
  rewrite IH by (intros x Hx; apply Hext; by right).
  apply decide_ext, Hext. by left.
Qed.

Section Passes.
Context (anns : option ThreadAnnotations).
Implicit Types (st : Threads) (m p : ChatMessage) (l : list ChatMessage).
Implicit Types (k t r : string) (mm : gmap string ChatMessage).

Lemma pushTo_lookup t m (mt : gmap string (list ChatMessage)) t' :
  pushTo t m mt !! t' =
  if decide (t = t') then appendGroup (mt !! t) [m] else mt !! t'.
Proof.
  unfold pushTo, appendGroup.
  destruct (mt !! t) eqn:E; case_decide; subst; by simplify_map_eq.
Qed.

Lemma appendGroup_app {A} (o : option (list A)) (l1 l2 : list A) :
  appendGroup (appendGroup o l1) l2 = appendGroup o (l1 ++ l2).
Proof.
  destruct l1 as [|x l1]; [done|]. destruct l2 as [|y l2]; simpl.
  - by rewrite app_nil_r.
  - by rewrite <-app_assoc.
Qed.

Lemma annotateStep_eq st m :
  annotateStep anns st m =
  match annotatedThread anns m with
  | Some t =>
      {| messageThreads := pushTo t m (messageThreads st);
         threadAnnotationMap := <[messageKey m := t]> (threadAnnotationMap st) |}
  | None => st
  end.
Proof.
  unfold annotateStep, annotatedThread.
  by destruct (findAnnotationForMessage anns m) as [[t a]|].
Qed.

(** The second pass appends to group [t] the turns annotated with [t]. *)
Lemma annotate_groups l st t :
  messageThreads (foldl (annotateStep anns) st l) !! t =
  appendGroup (messageThreads st !! t)
              (filter (λ m, annotatedThread anns m = Some t) l).
Proof.
  revert st. induction l as [|m l IH]; intros st; [done|].
  simpl. rewrite IH, annotateStep_eq.
  destruct (annotatedThread anns m) as [t0|] eqn:E.
  - simpl. rewrite pushTo_lookup. case_decide as Ht.
    + subst t0. rewrite filter_cons_True by done.
      by rewrite appendGroup_app.
    + rewrite filter_cons_False by congruence. done.
  - rewrite filter_cons_False by congruence. done.
Qed.

Lemma annotate_tam_notin l st k :
  k ∉ messageKey <$> l →
  threadAnnotationMap (foldl (annotateStep anns) st l) !! k =
  threadAnnotationMap st !! k.
Proof.
  revert st. induction l as [|m l IH]; intros st Hk; [done|].
  rewrite fmap_cons, not_elem_of_cons in Hk. destruct Hk as [Hk1 Hk2].
  simpl. rewrite IH by done. rewrite annotateStep_eq.
  destruct (annotatedThread anns m); simpl; [|done].
  by rewrite lookup_insert_ne.
Qed.

Lemma annotate_tam_in l st m :
  NoDup (messageKey <$> l) → m ∈ l →
  threadAnnotationMap (foldl (annotateStep anns) st l) !! messageKey m =
  match annotatedThread anns m with
  | Some t => Some t
  | None => threadAnnotationMap st !! messageKey m
  end.
Proof.
  revert st. induction l as [|x l IH]; intros st Hnd Hm.
  - by apply elem_of_nil in Hm.
  - rewrite fmap_cons in Hnd. apply NoDup_cons in Hnd as [Hx Hnd].
    simpl. apply elem_of_cons in Hm as [->|Hm].
    + rewrite annotate_tam_notin by done. rewrite annotateStep_eq.
      destruct (annotatedThread anns x); simpl; [|done].
      by rewrite lookup_insert_eq.
    + rewrite IH by done.
      destruct (annotatedThread anns m); [done|].
      rewrite annotateStep_eq.
      destruct (annotatedThread anns x); simpl; [|done].
      rewrite lookup_insert_ne; [done|].
      intros E. apply Hx. rewrite E. by apply list_elem_of_fmap_2.
Qed.

(** The third pass. *)
Lemma replyStep_eq mm st m :
  replyStep mm st m =
  match inheritFrom mm (threadAnnotationMap st) m with
  | Some t =>
      {| messageThreads := pushTo t m (messageThreads st);
         threadAnnotationMap := <[messageKey m := t]> (threadAnnotationMap st) |}
  | None => st
  end.
Proof.
  unfold replyStep, inheritFrom, parentThread.
  destruct (threadAnnotationMap st !! messageKey m); [done|].
  destruct (reply_to_turn m) as [r|]; simpl; [|done].
  destruct (JS.truthy r); [|done].
  destruct (mm !! r) as [p|]; simpl; [|done].
  destruct (threadAnnotationMap st !! messageKey p) as [pt|]; simpl; [|done].
  by destruct (JS.truthy pt).
Qed.

Lemma inheritFrom_fresh mm (tam : gmap string string) m t :
  inheritFrom mm tam m = Some t → tam !! messageKey m = None.
Proof. unfold inheritFrom. by destruct (tam !! messageKey m). Qed.

Lemma replyStep_mono mm st m k t :
  threadAnnotationMap st !! k = Some t →
  threadAnnotationMap (replyStep mm st m) !! k = Some t.
Proof.
  intros Hk. rewrite replyStep_eq.
  destruct (inheritFrom mm (threadAnnotationMap st) m) as [t'|] eqn:E;
    [|done].
  simpl. apply inheritFrom_fresh in E.
  rewrite lookup_insert_ne; [done|]. congruence.
Qed.

Lemma reply_tam_mono mm l st k t :
  threadAnnotationMap st !! k = Some t →
  threadAnnotationMap (foldl (replyStep mm) st l) !! k = Some t.
Proof.
  revert st. induction l as [|m l IH]; intros st Hk; [done|].
  simpl. by apply IH, replyStep_mono.
Qed.

Lemma replyStep_other mm st m k :
  k ≠ messageKey m →
  threadAnnotationMap (replyStep mm st m) !! k = threadAnnotationMap st !! k.
Proof.
  intros Hk. rewrite replyStep_eq.
  destruct (inheritFrom mm (threadAnnotationMap st) m); [|done].
  simpl. by rewrite lookup_insert_ne.
Qed.

Lemma reply_tam_notin mm l st k :
  k ∉ messageKey <$> l →
  threadAnnotationMap (foldl (replyStep mm) st l) !! k =
  threadAnnotationMap st !! k.
Proof.
  revert st. induction l as [|m l IH]; intros st Hk; [done|].
  rewrite fmap_cons, not_elem_of_cons in Hk. destruct Hk as [Hk1 Hk2].
  simpl. rewrite IH by done. by apply replyStep_other.
Qed.

Lemma replyStep_self mm st m :
  threadAnnotationMap (replyStep mm st m) !! messageKey m =
  match threadAnnotationMap st !! messageKey m with
  | Some t => Some t
  | None => inheritFrom mm (threadAnnotationMap st) m
  end.
Proof.
  rewrite replyStep_eq.
  destruct (inheritFrom mm (threadAnnotationMap st) m) as [t|] eqn:E.
  - simpl. rewrite lookup_insert_eq.
    by rewrite (inheritFrom_fresh _ _ _ _ E).
  - by destruct (threadAnnotationMap st !! messageKey m).
Qed.

(** With distinct keys, the entry of a turn is decided when the third
    pass reaches it. *)
Lemma reply_tam_split mm l1 m l2 st :
  NoDup (messageKey <$> (l1 ++ m :: l2)) →
  threadAnnotationMap (foldl (replyStep mm) st (l1 ++ m :: l2))
    !! messageKey m =
  threadAnnotationMap (replyStep mm (foldl (replyStep mm) st l1) m)
    !! messageKey m.
Proof.
  intros Hnd. rewrite foldl_app. simpl.
  apply reply_tam_notin.
  rewrite fmap_app, fmap_cons in Hnd.
  apply NoDup_app in Hnd as (_ & _ & Hnd). by apply NoDup_cons in Hnd as [? _].
Qed.

(** The third pass appends to group [t] the turns it maps to [t]. *)
Lemma reply_groups mm l st t :
  NoDup (messageKey <$> l) →
  messageThreads (foldl (replyStep mm) st l) !! t =
  appendGroup (messageThreads st !! t)
    (filter (λ m, threadAnnotationMap st !! messageKey m = None
                  ∧ threadAnnotationMap (foldl (replyStep mm) st l)
                      !! messageKey m = Some t) l).
Proof.
  revert st. induction l as [|m l IH]; intros st Hnd; [done|].
  rewrite fmap_cons in Hnd. apply NoDup_cons in Hnd as [Hm Hnd].
  simpl.
  pose proof (replyStep_self mm st m) as Hself.
  pose proof (replyStep_eq mm st m) as Hst'.
  assert (Hother : ∀ x, x ∈ l →
    threadAnnotationMap (replyStep mm st m) !! messageKey x
    = threadAnnotationMap st !! messageKey x).
  { intros x Hx. apply replyStep_other.
    intros E. apply Hm. rewrite <-E. by apply list_elem_of_fmap_2. }
  remember (replyStep mm st m) as st' eqn:Est'. clear Est'.
  rewrite IH by done.
  assert (Hfin : threadAnnotationMap (foldl (replyStep mm) st' l)
                   !! messageKey m
                 = threadAnnotationMap st' !! messageKey m)
    by (by apply reply_tam_notin).
  rewrite (filter_ext_elem
    (λ x, threadAnnotationMap st' !! messageKey x = None
          ∧ threadAnnotationMap (foldl (replyStep mm) st' l)
              !! messageKey x = Some t)
    (λ x, threadAnnotationMap st !! messageKey x = None
          ∧ threadAnnotationMap (foldl (replyStep mm) st' l)
              !! messageKey x = Some t))
    by (intros x Hx; by rewrite Hother).
  destruct (inheritFrom mm (threadAnnotationMap st) m) as [t0|] eqn:E.
  - pose proof (inheritFrom_fresh _ _ _ _ E) as Hfresh.
    rewrite Hfresh in Hself. rewrite Hself in Hfin.
    subst st'. simpl. rewrite pushTo_lookup. case_decide as Ht.
    + subst t0. rewrite filter_cons_True by done.
      by rewrite appendGroup_app.
    + rewrite filter_cons_False; [done|]. intros [_ H']. congruence.
  - subst st'. rewrite filter_cons_False; [done|]. intros [H1 H2].
    rewrite H1 in Hself. congruence.
Qed.

End Passes.

(** ** The assembled threads *)

Section MessageMap.
Implicit Types (m p : ChatMessage) (l : list ChatMessage) (r : string).

Lemma insertAll_notin l (mm0 : gmap string ChatMessage) r :
  r ∉ messageKey <$> l →
  foldl (λ mm m, <[messageKey m := m]> mm) mm0 l !! r = mm0 !! r.
Proof.
  revert mm0. induction l as [|m l IH]; intros mm0 Hr; [done|].
  rewrite fmap_cons, not_elem_of_cons in Hr. destruct Hr as [Hr1 Hr2].
  simpl. rewrite IH by done. by rewrite lookup_insert_ne.
Qed.

Lemma insertAll_Some l (mm0 : gmap string ChatMessage) r p :
  foldl (λ mm m, <[messageKey m := m]> mm) mm0 l !! r = Some p →
  (p ∈ l ∧ messageKey p = r) ∨ mm0 !! r = Some p.
Proof.
  revert mm0. induction l as [|m l IH]; intros mm0 Hp; [by right|].
  simpl in Hp. apply IH in Hp as [[Hp1 Hp2]|Hp].
  - left. split; [by right|done].
  - destruct (decide (messageKey m = r)) as [<-|Hne].
    + rewrite lookup_insert_eq in Hp. injection Hp as <-.
      left. split; [by left|done].
    + rewrite lookup_insert_ne in Hp by done. by right.
Qed.

Lemma messageMap_Some l r p :
  buildMessageMap l !! r = Some p → p ∈ l ∧ messageKey p = r.
Proof.
  intros Hp. apply insertAll_Some in Hp as [Hp|Hp]; [done|].
  by rewrite lookup_empty in Hp.
Qed.

Lemma messageMap_notin l r :
  r ∉ messageKey <$> l → buildMessageMap l !! r = None.
Proof.
  intros Hr. unfold buildMessageMap. by rewrite insertAll_notin.
Qed.

Lemma messageMap_elem l m :
  NoDup (messageKey <$> l) → m ∈ l → buildMessageMap l !! messageKey m = Some m.
Proof.
  unfold buildMessageMap. generalize (∅ : gmap string ChatMessage).
  induction l as [|x l IH]; intros mm0 Hnd Hm.
  - by apply elem_of_nil in Hm.
  - rewrite fmap_cons in Hnd. apply NoDup_cons in Hnd as [Hx Hnd].
    simpl. apply elem_of_cons in Hm as [->|Hm].
    + rewrite insertAll_notin by done. by rewrite lookup_insert_eq.
    + by apply IH.
Qed.

End MessageMap.

Lemma NoDup_key_inj (l : list ChatMessage) (x y : ChatMessage) :
  NoDup (messageKey <$> l) → x ∈ l → y ∈ l →
  messageKey x = messageKey y → x = y.
Proof.
  induction l as [|z l IH]; intros Hnd Hx Hy Hk.
  - by apply elem_of_nil in Hx.
  - rewrite fmap_cons in Hnd. apply NoDup_cons in Hnd as [Hz Hnd].
    apply elem_of_cons in Hx as [->|Hx]; apply elem_of_cons in Hy as [->|Hy].
    + done.
    + destruct Hz. rewrite Hk. by apply list_elem_of_fmap_2.
    + destruct Hz. rewrite <-Hk. by apply list_elem_of_fmap_2.
    + by apply IH.
Qed.

Section Assembly.
Context (anns : option ThreadAnnotations).
Implicit Types (m p c : ChatMessage) (l msgs : list ChatMessage).
Implicit Types (k t r : string).

Lemma secondPass_tam msgs m :
  NoDup (messageKey <$> msgs) → m ∈ msgs →
  threadAnnotationMap (secondPass anns msgs) !! messageKey m
  = annotatedThread anns m.
Proof.
  intros Hnd Hm. unfold secondPass. rewrite annotate_tam_in by done.
  by destruct (annotatedThread anns m).
Qed.

Lemma threadOf_notin msgs k :
  k ∉ messageKey <$> msgs →
  threadAnnotationMap (thirdPass anns msgs) !! k = None.
Proof.
  intros Hk. unfold thirdPass, secondPass.
  rewrite reply_tam_notin by done. by rewrite annotate_tam_notin.
Qed.

(** A turn with an annotation keeps the thread of that annotation. *)
Lemma threadOf_annotated msgs m t :
  NoDup (messageKey <$> msgs) → m ∈ msgs →
  annotatedThread anns m = Some t →
  threadOf anns msgs m = Some t.
Proof.
  intros Hnd Hm Ht. unfold threadOf, thirdPass.
  apply reply_tam_mono. by rewrite secondPass_tam.
Qed.

(** A turn without annotation gets what the third pass reads for its
    parent at the moment it reaches the turn. *)
Lemma threadOf_unannotated l1 m l2 :
  NoDup (messageKey <$> (l1 ++ m :: l2)) →
  annotatedThread anns m = None →
  threadOf anns (l1 ++ m :: l2) m =
  parentThread (buildMessageMap (l1 ++ m :: l2))
    (threadAnnotationMap
       (foldl (replyStep (buildMessageMap (l1 ++ m :: l2)))
              (secondPass anns (l1 ++ m :: l2)) l1))
    m.
Proof.
  intros Hnd Hann. unfold threadOf, thirdPass.
  rewrite reply_tam_split by done. rewrite replyStep_self.
  assert (Hm : m ∈ l1 ++ m :: l2) by (apply elem_of_app; right; by left).
  assert (Hfresh :
    threadAnnotationMap
      (foldl (replyStep (buildMessageMap (l1 ++ m :: l2)))
             (secondPass anns (l1 ++ m :: l2)) l1) !! messageKey m = None).
  { rewrite reply_tam_notin.
    - rewrite secondPass_tam by done. done.
    - rewrite fmap_app, fmap_cons in Hnd.
      apply NoDup_app in Hnd as (_ & Hnd & _).
      intros Hin. apply (Hnd _ Hin). by left. }
  unfold inheritFrom. by rewrite Hfresh.
Qed.

Lemma parentThread_Some (mm : gmap string ChatMessage)
    (tam : gmap string string) m t :
  parentThread mm tam m = Some t ↔
  ∃ r p, reply_to_turn m = Some r ∧ JS.truthy r = true ∧ mm !! r = Some p
         ∧ tam !! messageKey p = Some t ∧ JS.truthy t = true.
Proof.
  unfold parentThread. split.
  - destruct (reply_to_turn m) as [r|]; simpl; [|done].
    destruct (JS.truthy r) eqn:Er; [|done].
    destruct (mm !! r) as [p|] eqn:Ep; simpl; [|done].
    destruct (tam !! messageKey p) as [pt|] eqn:Et; simpl; [|done].
    destruct (JS.truthy pt) eqn:Ept; [|done].
    intros [= <-]. by exists r, p.
  - intros (r & p & -> & Hr & Hp & Ht & Htt). simpl.
    rewrite Hr, Hp. simpl. rewrite Ht. simpl. by rewrite Htt.
Qed.

(** A direct reply to a turn that is in the thread map after the second
    pass takes the thread of that turn, wherever the two are listed. *)
Lemma threadOf_reply_to_annotated msgs p c t :
  NoDup (messageKey <$> msgs) → p ∈ msgs → c ∈ msgs →
  annotatedThread anns p = Some t → JS.truthy t = true →
  annotatedThread anns c = None →
  reply_to_turn c = Some (messageKey p) →
  threadOf anns msgs c = Some t.
Proof.
  intros Hnd Hp Hc Hpt Ht Hcn Hr.
  destruct (list_elem_of_split _ _ Hc) as (l1 & l2 & ->).
  rewrite threadOf_unannotated by done.
  apply parentThread_Some. exists (messageKey p), p.
  split; [done|]. split; [apply messageKey_truthy|].
  split; [by apply messageMap_elem|]. split; [|done].
  apply reply_tam_mono. by rewrite secondPass_tam.
Qed.

(** What the third pass has written for [p] when it reaches [m]: the final
    thread of [p] when [p] is listed before [m], and the thread of the
    annotation of [p] otherwise. *)
Lemma tam_at_visit l1 m l2 p :
  NoDup (messageKey <$> (l1 ++ m :: l2)) → p ∈ l1 ++ m :: l2 →
  threadAnnotationMap
    (foldl (replyStep (buildMessageMap (l1 ++ m :: l2)))
           (secondPass anns (l1 ++ m :: l2)) l1) !! messageKey p
  = if decide (p ∈ l1) then threadOf anns (l1 ++ m :: l2) p
    else annotatedThread anns p.
Proof.
  intros Hnd Hp. pose proof Hnd as Hnd'.
  rewrite fmap_app in Hnd'. apply NoDup_app in Hnd' as (_ & Hdisj & _).
  case_decide as Hl1.
  - unfold threadOf, thirdPass. rewrite foldl_app. symmetry.
    apply reply_tam_notin. intros Hin.
    apply (Hdisj (messageKey p)); [by apply list_elem_of_fmap_2|done].
  - rewrite reply_tam_notin.
    + by apply secondPass_tam.
    + intros Hin. apply list_elem_of_fmap in Hin as (q & Hk & Hq).
      assert (q ∈ l1 ++ m :: l2) by (apply elem_of_app; by left).
      assert (p = q) as -> by (by apply (NoDup_key_inj (l1 ++ m :: l2))).
      done.
Qed.

(** The rule of the third pass: a turn without annotation that replies to
    a loaded turn gets a thread exactly when that turn has an annotation
    with this thread, or is listed before it and ends up in this thread;
    the thread id must be truthy. *)
Lemma threadOf_inherits l1 m l2 p t :
  NoDup (messageKey <$> (l1 ++ m :: l2)) → p ∈ l1 ++ m :: l2 →
  annotatedThread anns m = None →
  reply_to_turn m = Some (messageKey p) →
  threadOf anns (l1 ++ m :: l2) m = Some t ↔
  JS.truthy t = true
  ∧ (annotatedThread anns p = Some t
     ∨ (p ∈ l1 ∧ threadOf anns (l1 ++ m :: l2) p = Some t)).
Proof.
  intros Hnd Hp Hann Hr.
  rewrite threadOf_unannotated by done. rewrite parentThread_Some.
  pose proof (tam_at_visit l1 m l2 p Hnd Hp) as Htam.
  split.
  - intros (r & q & Hr' & _ & Hq & Ht & Htt).
    rewrite Hr in Hr'. injection Hr' as <-.
    rewrite messageMap_elem in Hq by done. injection Hq as <-.
    rewrite Htam in Ht. split; [done|].
    case_decide; [right|left]; done.
  - intros [Htt Hcases]. exists (messageKey p), p.
    split; [done|]. split; [apply messageKey_truthy|].
    split; [by apply messageMap_elem|]. split; [|done].
    rewrite Htam. case_decide as Hl1.
    + destruct Hcases as [Hpa|[_ Hpt]]; [|done].
      by apply threadOf_annotated.
    + by destruct Hcases as [Hpa|[? _]].
Qed.

(** The groups before sorting: the annotated turns of the thread, then
    the turns that took the thread from their parent. *)
Lemma thirdPass_groups msgs t :
  NoDup (messageKey <$> msgs) →
  messageThreads (thirdPass anns msgs) !! t =
  appendGroup None (explicitIn anns msgs t ++ inheritedIn anns msgs t).
Proof.
  intros Hnd. unfold thirdPass. rewrite reply_groups by done.
  unfold secondPass at 1. rewrite annotate_groups. simpl.
  rewrite lookup_empty, appendGroup_app. f_equal. f_equal.
  apply filter_ext_elem. intros m Hm.
  by rewrite secondPass_tam.
Qed.

End Assembly.

(** ** Sorting a group by time *)

Section SortByTime.
Context (getTime : string → option Z).
Implicit Types (m x : ChatMessage) (l : list ChatMessage).

Abbreviation timeLe := (timeLe getTime).

Lemma insertByTime_perm m l : insertByTime getTime m l ≡ₚ m :: l.
Proof.
  induction l as [|x l IH]; simpl; [done|].
  destruct (compareTime getTime m x <=? 0)%Z; [done|].
  rewrite IH. apply Permutation_swap.
Qed.

Lemma sortByTime_perm l : sortByTime getTime l ≡ₚ l.
Proof.
  induction l as [|m l IH]; simpl; [done|].
  by rewrite insertByTime_perm, IH.
Qed.

(** On valid dates the comparator decides the order of the times. *)
Lemma compareTime_valid m x (a b : Z) :
  messageTime getTime m = Some a → messageTime getTime x = Some b →
  compareTime getTime m x = (a - b)%Z.
Proof. intros Hm Hx. unfold compareTime. by rewrite Hm, Hx. Qed.

Lemma insertByTime_sorted m l :
  is_Some (messageTime getTime m) →
  Forall (λ x, is_Some (messageTime getTime x)) l →
  StronglySorted timeLe l → StronglySorted timeLe (insertByTime getTime m l).
Proof.
  intros [a Ha] Hvalid Hsorted. revert Hvalid.
  induction Hsorted as [|x l Hl IH Hx]; intros Hvalid; simpl.
  - repeat constructor.
  - apply Forall_cons in Hvalid as [[b Hb] Hvalid].
    rewrite (compareTime_valid m x a b) by done.
    destruct (a - b <=? 0)%Z eqn:E.
    + apply Z.leb_le in E. constructor; [by constructor|].
      constructor; [unfold timeLe, ChatView.timeLe; rewrite Ha, Hb; lia|].
      eapply Forall_impl; [exact Hx|]. intros y.
      unfold timeLe, ChatView.timeLe. rewrite Ha, Hb.
      destruct (messageTime getTime y); [lia|done].
    + apply Z.leb_gt in E. constructor; [by apply IH|].
      rewrite insertByTime_perm. constructor; [|done].
      unfold timeLe, ChatView.timeLe. rewrite Ha, Hb. lia.
Qed.

Lemma sortByTime_sorted l :
  Forall (λ x, is_Some (messageTime getTime x)) l →
  StronglySorted timeLe (sortByTime getTime l).
Proof.
  induction l as [|m l IH]; intros Hvalid; simpl; [constructor|].
  apply Forall_cons in Hvalid as [Hm Hvalid].
  apply insertByTime_sorted; [done| |by apply IH].
  by rewrite sortByTime_perm.
Qed.

(** Stability: turns with the same time keep their relative order. *)
Lemma insertByTime_stable m l (v : Z) :
  filter (λ x, messageTime getTime x = Some v) (insertByTime getTime m l)
  = filter (λ x, messageTime getTime x = Some v) (m :: l).
Proof.
  induction l as [|x l IH]; simpl; [done|].
  destruct (compareTime getTime m x <=? 0)%Z eqn:E; [done|].
  apply Z.leb_gt in E.
  rewrite (filter_cons _ x), IH, !filter_cons.
  repeat case_decide; try done.
  unfold compareTime in E.
  destruct (messageTime getTime m) as [a|]; [|lia].
  destruct (messageTime getTime x) as [b|]; [|lia].
  simplify_eq. lia.
Qed.

Lemma sortByTime_stable l (v : Z) :
  filter (λ x, messageTime getTime x = Some v) (sortByTime getTime l)
  = filter (λ x, messageTime getTime x = Some v) l.
Proof.
  induction l as [|m l IH]; simpl; [done|].
  by rewrite insertByTime_stable, !filter_cons, IH.
Qed.

Lemma threadGroups_lookup anns msgs (t : string) :
  threadGroups getTime anns msgs !! t
  = sortByTime getTime <$> messageThreads (thirdPass anns msgs) !! t.
Proof. unfold threadGroups. by rewrite lookup_fmap. Qed.

End SortByTime.

(** ** Order of the loaded messages *)

Section Order.
Context (anns : option ThreadAnnotations).
Implicit Types (m p c d : ChatMessage) (l msgs : list ChatMessage).

Lemma before_app l1 m l2 : m ∉ l1 → before m (l1 ++ m :: l2) = l1.
Proof.
  induction l1 as [|x l1 IH]; intros Hm; simpl.
  - by rewrite decide_True.
  - apply not_elem_of_cons in Hm as [Hx Hm].
    rewrite decide_False by done. by rewrite IH.
Qed.

Lemma before_split l m :
  m ∈ l → ∃ l2, l = before m l ++ m :: l2 ∧ m ∉ before m l.
Proof.
  induction l as [|x l IH]; intros Hm; [by apply elem_of_nil in Hm|].
  simpl. case_decide as Hx.
  - subst x. exists l. split; [done|]. apply not_elem_of_nil.
  - apply elem_of_cons in Hm as [->|Hm]; [done|].
    destruct (IH Hm) as (l2 & Hl & Hnot). exists l2. split.
    + simpl. by rewrite <-Hl.
    + apply not_elem_of_cons. split; [congruence|done].
Qed.

(** The rule of the third pass, with the position of the parent read off
    the list. *)
Lemma threadOf_reply msgs m p t :
  NoDup (messageKey <$> msgs) → m ∈ msgs → p ∈ msgs →
  annotatedThread anns m = None →
  reply_to_turn m = Some (messageKey p) →
  threadOf anns msgs m = Some t ↔
  JS.truthy t = true
  ∧ (annotatedThread anns p = Some t
     ∨ (listedBefore p m msgs = true ∧ threadOf anns msgs p = Some t)).
Proof.
  intros Hnd Hm Hp Hann Hr.
  destruct (before_split msgs m Hm) as (l2 & Hl & _).
  unfold listedBefore. rewrite bool_decide_eq_true.
  generalize dependent (before m msgs). intros l1 ->.
  by apply threadOf_inherits.
Qed.

(** A thread taken from the parent is truthy, and so is every thread of a
    turn without annotation. *)
Lemma threadOf_unannotated_truthy msgs m t :
  NoDup (messageKey <$> msgs) → m ∈ msgs →
  annotatedThread anns m = None →
  threadOf anns msgs m = Some t → JS.truthy t = true.
Proof.
  intros Hnd Hm Hann Ht.
  destruct (list_elem_of_split _ _ Hm) as (l1 & l2 & ->).
  rewrite threadOf_unannotated in Ht by done.
  by apply parentThread_Some in Ht as (? & ? & _ & _ & _ & _ & ?).
Qed.

(** A reply without annotation that is not listed after its parent stays
    without thread when the parent has no annotation either. *)
Lemma threadOf_not_after_parent msgs m p :
  NoDup (messageKey <$> msgs) → m ∈ msgs → p ∈ msgs →
  annotatedThread anns m = None → annotatedThread anns p = None →
  reply_to_turn m = Some (messageKey p) →
  listedBefore p m msgs = false →
  threadOf anns msgs m = None.
Proof.
  intros Hnd Hm Hp Hann Hpann Hr Hbefore.
  destruct (threadOf anns msgs m) as [t|] eqn:Ht; [|done].
  apply (threadOf_reply msgs m p t) in Ht as [_ [Ht|[Ht _]]]; try done.
  - congruence.
  - congruence.
Qed.

(** A reply without annotation whose reference names no loaded turn stays
    without thread. *)
Lemma threadOf_dangling msgs m r :
  NoDup (messageKey <$> msgs) → m ∈ msgs →
  annotatedThread anns m = None → reply_to_turn m = Some r →
  r ∉ messageKey <$> msgs →
  threadOf anns msgs m = None.
Proof.
  intros Hnd Hm Hann Hr Hdangling.
  destruct (list_elem_of_split _ _ Hm) as (l1 & l2 & ->).
  rewrite threadOf_unannotated by done.
  unfold parentThread. rewrite Hr. simpl.
  destruct (JS.truthy r); [|done].
  by rewrite messageMap_notin.
Qed.

(** The thread of a turn depends on its key only. *)
Lemma threadOf_key msgs m m' :
  messageKey m = messageKey m' →
  threadOf anns msgs m = threadOf anns msgs m'.
Proof. unfold threadOf. by intros ->. Qed.

(** Every thread the order [msgs1] assigns is assigned by the order
    [msgs2] too, when each reply that inherits in [msgs1] from a turn
    without annotation is listed after that turn in [msgs2] as well. *)
Lemma threadOf_perm_incl msgs1 msgs2 :
  msgs1 ≡ₚ msgs2 → NoDup (messageKey <$> msgs1) →
  (∀ m p, m ∈ msgs1 → p ∈ msgs1 →
     annotatedThread anns m = None → annotatedThread anns p = None →
     reply_to_turn m = Some (messageKey p) →
     threadOf anns msgs1 p ≠ None →
     listedBefore p m msgs1 = true → listedBefore p m msgs2 = true) →
  ∀ l1 l2, msgs1 = l1 ++ l2 →
  ∀ m t, m ∈ l1 → threadOf anns msgs1 m = Some t →
         threadOf anns msgs2 m = Some t.
Proof.
  intros Hperm Hnd1 Hside.
  assert (Hnd2 : NoDup (messageKey <$> msgs2)) by (by rewrite <-Hperm).
  induction l1 as [|x l1 IH] using rev_ind; intros l2 Hl m t Hm Ht.
  { by apply elem_of_nil in Hm. }
  rewrite <-app_assoc in Hl. simpl in Hl.
  apply elem_of_app in Hm as [Hm|Hm]; [by apply (IH (x :: l2))|].
  apply list_elem_of_singleton in Hm as ->.
  assert (Hx1 : x ∈ msgs1) by (rewrite Hl, elem_of_app; right; by left).
  assert (Hx2 : x ∈ msgs2) by (by rewrite <-Hperm).
  destruct (annotatedThread anns x) as [t'|] eqn:Hann.
  { rewrite (threadOf_annotated anns msgs1 x t') in Ht by done.
    injection Ht as <-. by apply threadOf_annotated. }
  pose proof Ht as Ht'. rewrite Hl in Ht'.
  rewrite threadOf_unannotated in Ht'; [|by rewrite <-Hl|done].
  apply parentThread_Some in Ht' as (r & p & Hr & _ & Hp & _ & _).
  rewrite <-Hl in Hp. apply messageMap_Some in Hp as [Hp <-].
  assert (Hp2 : p ∈ msgs2) by (by rewrite <-Hperm).
  pose proof Ht as Hcases.
  apply (threadOf_reply msgs1 x p t) in Hcases as [Htt Hcases]; try done.
  apply (threadOf_reply msgs2 x p t); try done. split; [done|].
  destruct (annotatedThread anns p) as [tp|] eqn:Hpann.
  - left. destruct Hcases as [Hc|[_ Hc]]; [done|].
    rewrite (threadOf_annotated anns msgs1 p tp) in Hc by done. done.
  - right. destruct Hcases as [Hc|[Hb Hc]]; [done|].
    split.
    + apply (Hside x p); try done. by rewrite Hc.
    + apply (IH (x :: l2) Hl); [|done].
      unfold listedBefore in Hb. apply bool_decide_eq_true in Hb.
      rewrite Hl in Hb. rewrite before_app in Hb; [done|].
      intros Hin. rewrite Hl, fmap_app, fmap_cons in Hnd1.
      apply NoDup_app in Hnd1 as (_ & Hdisj & _).
      apply (Hdisj (messageKey x)); [by apply list_elem_of_fmap_2|by left].
Qed.

(** Reading [sameInheritanceOrder]. *)
Lemma sameInheritanceOrder_spec msgs1 msgs2 :
  sameInheritanceOrder anns msgs1 msgs2 = true ↔
  ∀ m p, m ∈ msgs1 → p ∈ msgs1 →
    annotatedThread anns m = None → annotatedThread anns p = None →
    reply_to_turn m = Some (messageKey p) →
    threadOf anns msgs1 p ≠ None ∨ threadOf anns msgs2 p ≠ None →
    listedBefore p m msgs1 = listedBefore p m msgs2.
Proof.
  unfold sameInheritanceOrder. rewrite forallb_forall. split.
  - intros Hall m p Hm Hp Hann Hpann Hr Hthreaded.
    apply list_elem_of_In in Hm, Hp.
    specialize (Hall m Hm). rewrite forallb_forall in Hall.
    specialize (Hall p Hp).
    rewrite Hann, Hpann, Hr in Hall.
    rewrite !(bool_decide_eq_false_2 (is_Some None)) in Hall
      by (by intros [? ?]).
    rewrite (bool_decide_eq_true_2 (Some _ = Some _)) in Hall by done.
    simpl in Hall. apply orb_true_iff in Hall as [Hall|Hall].
    + apply andb_true_iff in Hall as [H1 H2].
      apply bool_decide_eq_true in H1, H2. by destruct Hthreaded.
    + by apply bool_decide_eq_true in Hall.
  - intros Hall m Hm. rewrite forallb_forall. intros p Hp.
    apply list_elem_of_In in Hm, Hp.
    destruct (annotatedThread anns m) as [tm|] eqn:Hann.
    { by rewrite (bool_decide_eq_true_2 (is_Some (Some tm))). }
    destruct (annotatedThread anns p) as [tp|] eqn:Hpann.
    { rewrite (bool_decide_eq_true_2 (is_Some (Some tp))) by done.
      by rewrite orb_true_r. }
    rewrite !(bool_decide_eq_false_2 (is_Some None)) by (by intros [? ?]).
    simpl.
    destruct (decide (reply_to_turn m = Some (messageKey p))) as [Hr|Hr];
      [|by rewrite (bool_decide_eq_false_2 _ Hr)].
    rewrite (bool_decide_eq_true_2 _ Hr). simpl.
    destruct (decide (threadOf anns msgs1 p = None)) as [H1|H1];
      destruct (decide (threadOf anns msgs2 p = None)) as [H2|H2].
    + by rewrite (bool_decide_eq_true_2 _ H1), (bool_decide_eq_true_2 _ H2).
    + rewrite (bool_decide_eq_false_2 _ H2), andb_false_r. simpl.
      apply bool_decide_eq_true. apply Hall; try done. by right.
    + rewrite (bool_decide_eq_false_2 _ H1). simpl.
      apply bool_decide_eq_true. apply Hall; try done. by left.
    + rewrite (bool_decide_eq_false_2 _ H1). simpl.
      apply bool_decide_eq_true. apply Hall; try done. by left.
Qed.

(** Two orders that list every inheriting reply on the same side of its
    parent give every turn the same thread. *)
Lemma threadOf_perm_eq msgs1 msgs2 :
  msgs1 ≡ₚ msgs2 → NoDup (messageKey <$> msgs1) →
  sameInheritanceOrder anns msgs1 msgs2 = true →
  ∀ m, threadOf anns msgs1 m = threadOf anns msgs2 m.
Proof.
  intros Hperm Hnd1 Hsame. rewrite sameInheritanceOrder_spec in Hsame.
  assert (Hnd2 : NoDup (messageKey <$> msgs2)) by (by rewrite <-Hperm).
  assert (H12 : ∀ m t, m ∈ msgs1 → threadOf anns msgs1 m = Some t →
                       threadOf anns msgs2 m = Some t).
  { intros m t Hm. apply (threadOf_perm_incl msgs1 msgs2 Hperm Hnd1)
      with (l1 := msgs1) (l2 := []); [|by rewrite app_nil_r|done].
    intros x p Hx Hp Hann Hpann Hr Hthreaded Hb.
    rewrite <-(Hsame x p) by (done || by left). done. }
  assert (H21 : ∀ m t, m ∈ msgs1 → threadOf anns msgs2 m = Some t →
                       threadOf anns msgs1 m = Some t).
  { intros m t Hm. rewrite Hperm in Hm. revert Hm.
    apply (threadOf_perm_incl msgs2 msgs1 (symmetry Hperm) Hnd2)
      with (l1 := msgs2) (l2 := []); [|by rewrite app_nil_r].
    intros x p Hx Hp Hann Hpann Hr Hthreaded Hb.
    rewrite <-Hperm in Hx, Hp.
    rewrite (Hsame x p) by (done || by right). done. }
  intros m.
  destruct (decide (messageKey m ∈ messageKey <$> msgs1)) as [Hk|Hk].
  - apply list_elem_of_fmap in Hk as (m' & Hk & Hm').
    rewrite !(threadOf_key _ m m' Hk).
    destruct (threadOf anns msgs1 m') as [t|] eqn:E1.
    + symmetry. by apply H12.
    + destruct (threadOf anns msgs2 m') as [t|] eqn:E2; [|done].
      apply H21 in E2; [congruence|done].
  - unfold threadOf. rewrite !threadOf_notin; try done.
    by rewrite <-Hperm.
Qed.

(** Conversely, two orders that give every turn the same thread list
    every inheriting reply on the same side of its parent. *)
Lemma threadOf_eq_same_side msgs1 msgs2 :
  msgs1 ≡ₚ msgs2 → NoDup (messageKey <$> msgs1) →
  (∀ m, threadOf anns msgs1 m = threadOf anns msgs2 m) →
  sameInheritanceOrder anns msgs1 msgs2 = true.
Proof.
  intros Hperm Hnd1 Heq. apply sameInheritanceOrder_spec.
  assert (Hnd2 : NoDup (messageKey <$> msgs2)) by (by rewrite <-Hperm).
  intros m p Hm Hp Hann Hpann Hr Hthreaded.
  assert (Hm2 : m ∈ msgs2) by (by rewrite <-Hperm).
  assert (Hp2 : p ∈ msgs2) by (by rewrite <-Hperm).
  assert (∃ t, threadOf anns msgs1 p = Some t) as [t Ht1].
  { destruct Hthreaded as [Hth|Hth]; [|rewrite <-Heq in Hth];
      destruct (threadOf anns msgs1 p) as [t|]; by eauto. }
  assert (Ht2 : threadOf anns msgs2 p = Some t) by (by rewrite <-Heq).
  assert (Htt : JS.truthy t = true)
    by (by apply (threadOf_unannotated_truthy msgs1 p)).
  assert (Hb1 : listedBefore p m msgs1 = true
                ↔ threadOf anns msgs1 m = Some t).
  { rewrite (threadOf_reply msgs1 m p t) by done. split.
    - intros Hb. split; [done|]. by right.
    - intros [_ [Hc|[Hb _]]]; [congruence|done]. }
  assert (Hb2 : listedBefore p m msgs2 = true
                ↔ threadOf anns msgs2 m = Some t).
  { rewrite (threadOf_reply msgs2 m p t) by done. split.
    - intros Hb. split; [done|]. by right.
    - intros [_ [Hc|[Hb _]]]; [congruence|done]. }
  rewrite <-Heq in Hb2.
  destruct (listedBefore p m msgs1) eqn:E1;
    destruct (listedBefore p m msgs2) eqn:E2; try done.
  - assert (false = true) by (apply Hb2, Hb1; done). done.
  - assert (false = true) by (apply Hb1, Hb2; done). done.
Qed.

Lemma before_subseteq l m x : x ∈ before m l → x ∈ l.
Proof.
  induction l as [|y l IH]; simpl; [done|].
  case_decide; [by intros ?%elem_of_nil|].
  intros [->|Hx]%elem_of_cons; [by left|]. right. by apply IH.
Qed.

Lemma before_app_l l l' m : m ∈ l → before m (l ++ l') = before m l.
Proof.
  induction l as [|y l IH]; intros Hm; [by apply elem_of_nil in Hm|].
  simpl. case_decide; [done|].
  apply elem_of_cons in Hm as [->|Hm]; [done|]. by rewrite IH.
Qed.

(** The turns of a reply chain take no thread but the one of the turn
    the chain hangs below. *)
Lemma replyChain_thread msgs (Y : string) cs p :
  NoDup (messageKey <$> msgs) → p ∈ msgs →
  (∀ t, threadOf anns msgs p = Some t → t = Y) →
  (∀ t, annotatedThread anns p = Some t → t = Y) →
  replyChain anns msgs p cs = true →
  ∀ d t, d ∈ cs → threadOf anns msgs d = Some t → t = Y.
Proof.
  intros Hnd. revert p.
  induction cs as [|c cs IH]; intros p Hp Hpt Hpa Hch d t Hd Ht.
  { by apply elem_of_nil in Hd. }
  cbn [replyChain] in Hch.
  apply andb_true_iff in Hch as [Hch Hrest].
  apply andb_true_iff in Hch as [Hch Hr].
  apply andb_true_iff in Hch as [Hc Hann].
  apply bool_decide_eq_true in Hr, Hc, Hann.
  assert (Hct : ∀ t', threadOf anns msgs c = Some t' → t' = Y).
  { intros t' Ht'.
    apply (threadOf_reply msgs c p t') in Ht' as [_ [Ht'|[_ Ht']]];
      try done; eauto. }
  apply elem_of_cons in Hd as [->|Hd]; [by apply Hct|].
  apply (IH c Hc Hct) with (d := d); try done. intros t'. by rewrite Hann.
Qed.

(** The turns of a reply chain listed in order take the thread of the
    turn the chain hangs below. *)
Lemma replyChain_inherits msgs (Y : string) cs p :
  NoDup (messageKey <$> msgs) → JS.truthy Y = true → p ∈ msgs →
  threadOf anns msgs p = Some Y →
  (annotatedThread anns p = Some Y
   ∨ ∀ c, head cs = Some c → listedBefore p c msgs = true) →
  replyChain anns msgs p cs = true →
  listedInOrder msgs cs = true →
  ∀ d, d ∈ cs → threadOf anns msgs d = Some Y.
Proof.
  intros Hnd HY. revert p.
  induction cs as [|c cs IH]; intros p Hp Hpt Hfirst Hch Hord d Hd.
  { by apply elem_of_nil in Hd. }
  cbn [replyChain] in Hch.
  apply andb_true_iff in Hch as [Hch Hrest].
  apply andb_true_iff in Hch as [Hch Hr].
  apply andb_true_iff in Hch as [Hc Hann].
  apply bool_decide_eq_true in Hr, Hc, Hann.
  assert (Hct : threadOf anns msgs c = Some Y).
  { apply (threadOf_reply msgs c p Y); try done. split; [done|].
    destruct Hfirst as [Hpa|Hb]; [by left|]. right. split; [|done].
    by apply Hb. }
  apply elem_of_cons in Hd as [->|Hd]; [done|].
  apply (IH c); try done.
  - right. intros c' Hc'. destruct cs as [|c'' cs]; [done|].
    simpl in Hc'. injection Hc' as ->.
    cbn [listedInOrder] in Hord. by apply andb_true_iff in Hord as [? _].
  - destruct cs as [|c'' cs]; [done|].
    cbn [listedInOrder] in Hord. by apply andb_true_iff in Hord as [_ ?].
Qed.

End Order.

(** ** Sets of turns closed under replies *)

Section Closed.
Context (anns : option ThreadAnnotations) (S : string → Prop).
Implicit Types (m p : ChatMessage) (l : list ChatMessage) (st : Threads).

Lemma annotate_closed l st :
  (∀ m, m ∈ l → S (messageKey m) → annotatedThread anns m = None) →
  (∀ k, S k → threadAnnotationMap st !! k = None) →
  ∀ k, S k →
    threadAnnotationMap (foldl (annotateStep anns) st l) !! k = None.
Proof.
  revert st. induction l as [|m l IH]; intros st Hl Hst k Hk; [by apply Hst|].
  simpl. apply IH; [intros x Hx; apply Hl; by right| |done].
  intros k' Hk'. rewrite annotateStep_eq.
  destruct (annotatedThread anns m) as [t|] eqn:E; [|by apply Hst].
  simpl. rewrite lookup_insert_ne; [by apply Hst|].
  intros <-. rewrite Hl in E; [done|by left|done].
Qed.

Lemma reply_closed (mm : gmap string ChatMessage) l st :
  (∀ r p, mm !! r = Some p → messageKey p = r) →
  (∀ m r, m ∈ l → S (messageKey m) → reply_to_turn m = Some r → S r) →
  (∀ k, S k → threadAnnotationMap st !! k = None) →
  ∀ k, S k →
    threadAnnotationMap (foldl (replyStep mm) st l) !! k = None.
Proof.
  intros Hmm. revert st.
  induction l as [|m l IH]; intros st Hl Hst k Hk; [by apply Hst|].
  simpl. apply IH; [intros x r Hx; apply Hl; by right| |done].
  intros k' Hk'. rewrite replyStep_eq.
  destruct (inheritFrom mm (threadAnnotationMap st) m) as [t|] eqn:E;
    [|by apply Hst].
  simpl. rewrite lookup_insert_ne; [by apply Hst|].
  intros <-. unfold inheritFrom in E.
  rewrite Hst in E by done.
  apply parentThread_Some in E as (r & p & Hr & _ & Hp & Ht & _).
  rewrite (Hmm _ _ Hp), Hst in Ht; [done|].
  eapply Hl; [by left|done..].
Qed.

Lemma thirdPass_closed l :
  (∀ m, m ∈ l → S (messageKey m) → annotatedThread anns m = None) →
  (∀ m r, m ∈ l → S (messageKey m) → reply_to_turn m = Some r → S r) →
  ∀ k, S k → threadAnnotationMap (thirdPass anns l) !! k = None.
Proof.
  intros Hann Hrep. unfold thirdPass. apply reply_closed; [|done|].
  - intros r p Hp. by apply messageMap_Some in Hp as [_ ?].
  - unfold secondPass. by apply annotate_closed.
Qed.

End Closed.

Lemma elem_of_unthreaded anns (msgs : list ChatMessage) (m : ChatMessage) :
  m ∈ unthreadedMessages anns msgs ↔ m ∈ msgs ∧ threadOf anns msgs m = None.
Proof.
  unfold unthreadedMessages, threadOf. rewrite list_elem_of_filter. tauto.
Qed.

(** ** The thread groups *)

(** Without any assumption on the keys: a turn sits in the group of its own
    annotation, or it has none and sits in the group its key is mapped to. *)
Section GroupMembers.
Context (anns : option ThreadAnnotations).
Implicit Types (m x : ChatMessage) (l msgs g : list ChatMessage).
Implicit Types (st : Threads) (t : string) (mm : gmap string ChatMessage).

Lemma pushTo_elem t m (mt : gmap string (list ChatMessage)) t' g x :
  pushTo t m mt !! t' = Some g → x ∈ g →
  (t = t' ∧ x = m) ∨ (∃ g0, mt !! t' = Some g0 ∧ x ∈ g0).
Proof.
  rewrite pushTo_lookup. case_decide as Ht.
  - subst t'. unfold appendGroup. intros [= <-] Hx.
    apply elem_of_app in Hx as [Hx|Hx].
    + right. destruct (mt !! t) as [g0|]; simpl in Hx.
      * by exists g0.
      * by apply elem_of_nil in Hx.
    + left. by apply list_elem_of_singleton in Hx.
  - intros Hg Hx. right. by exists g.
Qed.

Lemma annotate_mapped l st m :
  m ∈ l → annotatedThread anns m ≠ None →
  threadAnnotationMap (foldl (annotateStep anns) st l) !! messageKey m ≠ None.
Proof.
  revert st. induction l as [|x l IH] using rev_ind; intros st Hm Hann.
  - by apply elem_of_nil in Hm.
  - rewrite foldl_app. simpl. rewrite annotateStep_eq.
    apply elem_of_app in Hm as [Hm|Hm].
    + destruct (annotatedThread anns x) as [t|]; [|by apply IH].
      simpl. destruct (decide (messageKey x = messageKey m)) as [<-|Hne].
      * by rewrite lookup_insert_eq.
      * rewrite lookup_insert_ne by done. by apply IH.
    + apply list_elem_of_singleton in Hm as ->.
      destruct (annotatedThread anns x) as [t|]; [|done].
      simpl. by rewrite lookup_insert_eq.
Qed.

Lemma secondPass_placed msgs t g x :
  messageThreads (secondPass anns msgs) !! t = Some g → x ∈ g →
  annotatedThread anns x = Some t.
Proof.
  unfold secondPass. rewrite annotate_groups. simpl. rewrite lookup_empty.
  destruct (filter (λ m, annotatedThread anns m = Some t) msgs) as [|y l]
    eqn:El; [done|].
  simpl. intros [= <-] Hx. rewrite <-El in Hx.
  by apply list_elem_of_filter in Hx as [? _].
Qed.

Lemma reply_placed mm msgs l st :
  (∀ m, m ∈ l → m ∈ msgs) →
  annotatedMapped anns msgs st →
  (∀ t g x, messageThreads st !! t = Some g → x ∈ g → placed anns st t x) →
  ∀ t g x, messageThreads (foldl (replyStep mm) st l) !! t = Some g →
           x ∈ g → placed anns (foldl (replyStep mm) st l) t x.
Proof.
  revert st. induction l as [|m l IH]; intros st Hl Hmapped Hplaced; [done|].
  simpl. apply IH.
  - intros x Hx. apply Hl. by right.
  - intros x Hx Hann. specialize (Hmapped x Hx Hann).
    destruct (threadAnnotationMap st !! messageKey x) as [t0|] eqn:E; [|done].
    by rewrite (replyStep_mono mm st m _ t0 E).
  - intros t g x Hg Hx. rewrite replyStep_eq in Hg |- *.
    destruct (inheritFrom mm (threadAnnotationMap st) m) as [t0|] eqn:E.
    + pose proof (inheritFrom_fresh _ _ _ _ E) as Hfresh.
      simpl in Hg. apply (pushTo_elem _ _ _ _ _ x Hg) in Hx
        as [[-> ->]|(g0 & Hg0 & Hx)].
      * right. split; [|simpl; by rewrite lookup_insert_eq].
        destruct (annotatedThread anns m) eqn:Hann; [|done].
        destruct (Hmapped m); [apply Hl; by left|by rewrite Hann|done].
      * destruct (Hplaced t g0 x Hg0 Hx) as [Hex|[Hnone Hmap]]; [by left|].
        right. split; [done|]. simpl.
        rewrite lookup_insert_ne; [done|]. congruence.
    + by apply (Hplaced t g x).
Qed.

Lemma thirdPass_placed msgs t g x :
  messageThreads (thirdPass anns msgs) !! t = Some g → x ∈ g →
  placed anns (thirdPass anns msgs) t x.
Proof.
  unfold thirdPass. apply (reply_placed _ msgs); [done| |].
  - intros m Hm Hann. by apply annotate_mapped.
  - intros t' g' x' Hg' Hx'. left. by eapply secondPass_placed.
Qed.

(** A message is in at most one group. *)
Lemma group_unique (getTime : string → option Z) msgs t t' g g' x :
  threadGroups getTime anns msgs !! t = Some g →
  threadGroups getTime anns msgs !! t' = Some g' →
  x ∈ g → x ∈ g' → t = t'.
Proof.
  rewrite !threadGroups_lookup. intros Hg Hg' Hx Hx'.
  destruct (messageThreads (thirdPass anns msgs) !! t) as [g0|] eqn:E;
    [|done].
  destruct (messageThreads (thirdPass anns msgs) !! t') as [g0'|] eqn:E';
    [|done].
  simpl in Hg, Hg'. injection Hg as <-. injection Hg' as <-.
  rewrite sortByTime_perm in Hx, Hx'.
  destruct (thirdPass_placed msgs t g0 x E Hx) as [H1|[H1 H1']];
    destruct (thirdPass_placed msgs t' g0' x E' Hx') as [H2|[H2 H2']];
    congruence.
Qed.

(** A turn listed as unthreaded is in no group. *)
Lemma unthreaded_in_no_group (getTime : string → option Z) msgs t g x :
  x ∈ unthreadedMessages anns msgs →
  threadGroups getTime anns msgs !! t = Some g → x ∉ g.
Proof.
  rewrite elem_of_unthreaded, threadGroups_lookup. intros [Hx Hnone] Hg Hin.
  destruct (messageThreads (thirdPass anns msgs) !! t) as [g0|] eqn:E;
    [|done].
  simpl in Hg. injection Hg as <-. rewrite sortByTime_perm in Hin.
  unfold threadOf in Hnone.
  destruct (thirdPass_placed msgs t g0 x E Hin) as [Hann|[_ Hmap]];
    [|congruence].
  assert (Hmapped : threadAnnotationMap (secondPass anns msgs)
                      !! messageKey x ≠ None).
  { apply annotate_mapped; [done|]. by rewrite Hann. }
  destruct (threadAnnotationMap (secondPass anns msgs) !! messageKey x)
    as [t0|] eqn:E2; [|done].
  unfold thirdPass in Hnone.
  by rewrite (reply_tam_mono _ _ _ _ t0 E2) in Hnone.
Qed.

(** Groups are never empty and hold loaded messages only. *)
Lemma reply_groups_loaded mm msgs l st :
  (∀ m, m ∈ l → m ∈ msgs) →
  (∀ t g, messageThreads st !! t = Some g → g ≠ [] ∧ ∀ x, x ∈ g → x ∈ msgs) →
  ∀ t g, messageThreads (foldl (replyStep mm) st l) !! t = Some g →
         g ≠ [] ∧ ∀ x, x ∈ g → x ∈ msgs.
Proof.
  revert st. induction l as [|m l IH]; intros st Hl Hst; [done|].
  simpl. apply IH; [intros x Hx; apply Hl; by right|].
  intros t g. rewrite replyStep_eq.
  destruct (inheritFrom mm (threadAnnotationMap st) m) as [t0|];
    [|by apply Hst].
  simpl. intros Hg. split.
  - rewrite pushTo_lookup in Hg. case_decide; [|by apply (Hst t g)].
    injection Hg as <-. by destruct (default [] (messageThreads st !! t0)).
  - intros x Hx. apply (pushTo_elem _ _ _ _ _ x Hg) in Hx
      as [[_ ->]|(g0 & Hg0 & Hx)].
    + apply Hl. by left.
    + by apply (Hst t g0).
Qed.

Lemma thirdPass_groups_loaded msgs t g :
  messageThreads (thirdPass anns msgs) !! t = Some g →
  g ≠ [] ∧ ∀ x, x ∈ g → x ∈ msgs.
Proof.
  unfold thirdPass. apply (reply_groups_loaded _ msgs); [done|].
  intros t' g'. unfold secondPass. rewrite annotate_groups.
  unfold emptyThreads. cbn [messageThreads]. rewrite lookup_empty.
  destruct (filter (λ m, annotatedThread anns m = Some t') msgs) as [|y l]
    eqn:El; [done|].
  simpl. intros [= <-]. split; [done|]. intros x Hx. rewrite <-El in Hx.
  by apply list_elem_of_filter in Hx as [_ ?].
Qed.

End GroupMembers.

Section Groups.
Context (getTime : string → option Z) (anns : option ThreadAnnotations).
Implicit Types (m : ChatMessage) (msgs g : list ChatMessage) (t : string).

Lemma threadGroups_eq msgs t :
  NoDup (messageKey <$> msgs) →
  threadGroups getTime anns msgs !! t =
  match explicitIn anns msgs t ++ inheritedIn anns msgs t with
  | [] => None
  | l => Some (sortByTime getTime l)
  end.
Proof.
  intros Hnd. rewrite threadGroups_lookup, thirdPass_groups by done.
  by destruct (explicitIn anns msgs t ++ inheritedIn anns msgs t).
Qed.

Lemma threadGroups_Some msgs t g :
  NoDup (messageKey <$> msgs) →
  threadGroups getTime anns msgs !! t = Some g →
  g = sortByTime getTime (explicitIn anns msgs t ++ inheritedIn anns msgs t).
Proof.
  intros Hnd. rewrite threadGroups_eq by done.
  destruct (explicitIn anns msgs t ++ inheritedIn anns msgs t);
    [done|by intros [= <-]].
Qed.

Lemma elem_of_population msgs t m :
  NoDup (messageKey <$> msgs) →
  m ∈ explicitIn anns msgs t ++ inheritedIn anns msgs t
  ↔ m ∈ msgs ∧ threadOf anns msgs m = Some t.
Proof.
  intros Hnd. unfold explicitIn, inheritedIn.
  rewrite elem_of_app, !list_elem_of_filter. split.
  - intros [[Hann Hm]|[[_ Ht] Hm]]; [|done].
    split; [done|]. by apply threadOf_annotated.
  - intros [Hm Ht]. destruct (annotatedThread anns m) as [t'|] eqn:Hann.
    + left. split; [|done].
      rewrite (threadOf_annotated anns msgs m t') in Ht by done. done.
    + by right.
Qed.

Lemma NoDup_population msgs t :
  NoDup (messageKey <$> msgs) →
  NoDup (explicitIn anns msgs t ++ inheritedIn anns msgs t).
Proof.
  intros Hnd. apply NoDup_fmap_1 in Hnd.
  apply NoDup_app. split; [by apply NoDup_filter|].
  split; [|by apply NoDup_filter].
  unfold explicitIn, inheritedIn. intros m.
  rewrite !list_elem_of_filter. intros [H1 _] [[H2 _] _]. congruence.
Qed.

Lemma elem_of_group msgs t g m :
  NoDup (messageKey <$> msgs) →
  threadGroups getTime anns msgs !! t = Some g →
  m ∈ g ↔ m ∈ msgs ∧ threadOf anns msgs m = Some t.
Proof.
  intros Hnd Hg. rewrite (threadGroups_Some msgs t g Hnd Hg).
  rewrite sortByTime_perm. by apply elem_of_population.
Qed.

Lemma group_of_threaded msgs t m :
  NoDup (messageKey <$> msgs) →
  m ∈ msgs → threadOf anns msgs m = Some t →
  ∃ g, threadGroups getTime anns msgs !! t = Some g ∧ m ∈ g.
Proof.
  intros Hnd Hm Ht.
  assert (Hin : m ∈ explicitIn anns msgs t ++ inheritedIn anns msgs t)
    by (by apply elem_of_population).
  rewrite threadGroups_eq by done.
  destruct (explicitIn anns msgs t ++ inheritedIn anns msgs t) as [|x l]
    eqn:El; [by apply elem_of_nil in Hin|].
  eexists. split; [done|]. by rewrite sortByTime_perm.
Qed.

(** A group is a rearrangement of any duplicate-free list of the loaded
    turns of its thread. *)
Lemma group_perm msgs t g l :
  NoDup (messageKey <$> msgs) →
  threadGroups getTime anns msgs !! t = Some g →
  NoDup l →
  (∀ x, x ∈ l ↔ x ∈ msgs ∧ threadOf anns msgs x = Some t) →
  g ≡ₚ l.
Proof.
  intros Hnd Hg Hl Hmem. apply NoDup_Permutation; [|done|].
  - rewrite (threadGroups_Some msgs t g Hnd Hg).
    rewrite sortByTime_perm. by apply NoDup_population.
  - intros x. rewrite (elem_of_group msgs t g x Hnd Hg). by rewrite Hmem.
Qed.

End Groups.

(** ** The annotation forms *)

(** The other ChatView sends the hundredth part of what the admin UI copy
    sends, for every form input the copy accepts. *)
Lemma variant_sends_hundredth (msg : ChatMessage)
    (values : AnnotationForm.FormValues) :
  AnnotationForm.validate_copy values = true →
  AnnotationForm.c_confidence
    <$> AnnotationForm.handleCreateAnnotation_variant (Some msg) values
  = (λ c, PrimFloat.div (AnnotationForm.c_confidence c) 100)
    <$> AnnotationForm.handleCreateAnnotation_copy (Some msg) values.
Proof.
  intros Hvalid.
  assert (Hvariant : AnnotationForm.validate_variant values = true).
  { revert Hvalid.
    unfold AnnotationForm.validate_copy, AnnotationForm.validate_variant.
    destruct (JS.truthy (AnnotationForm.thread_id values)); [|done].
    destruct (AnnotationForm.confidenceValid
                (AnnotationForm.confidence values)).
    - rewrite !andb_true_l, !andb_true_r.
      intros Hv. by apply andb_true_iff in Hv as [_ ?].
    - by rewrite andb_false_r. }
  unfold AnnotationForm.handleCreateAnnotation_variant,
    AnnotationForm.handleCreateAnnotation_copy.
  by rewrite Hvalid, Hvariant.
Qed.

(** ** The properties of the specification *)

(** C1, as stated, fails: the third pass reads the thread of the parent
    while it runs, so a reply listed before its parent misses a thread the
    parent only inherits later.  The same three turns resolve differently
    in two list orders. *)
Lemma C1_order_counterexample :
  [Scenario.t1; Scenario.t2; Scenario.t3]
    ≡ₚ [Scenario.t3; Scenario.t2; Scenario.t1]
  ∧ threadOf Scenario.labelA [Scenario.t1; Scenario.t2; Scenario.t3]
      Scenario.t3 = Some "A"
  ∧ threadOf Scenario.labelA [Scenario.t3; Scenario.t2; Scenario.t1]
      Scenario.t3 = None.
Proof.
  split; [|split]; [|by vm_compute..].
  apply (Permutation_rev [Scenario.t1; Scenario.t2; Scenario.t3]).
Qed.

(** C1 (amended): for turns with distinct keys, two list orders give
    every turn the same thread exactly when they list every reply without
    an annotation of its own on the same side of the turn it replies to,
    for the parents that have no annotation of their own and are threaded
    in one of the two orders.  A reply without annotation that is not
    listed after such a parent stays without a thread. *)
Theorem C1_order_independent_iff_same_inheritance_order
    (anns : option ThreadAnnotations) (msgs1 msgs2 : list ChatMessage) :
  msgs1 ≡ₚ msgs2 →
  NoDup (messageKey <$> msgs1) →
  ((∀ m, threadOf anns msgs1 m = threadOf anns msgs2 m)
   ↔ sameInheritanceOrder anns msgs1 msgs2 = true)
  ∧ (∀ m p, m ∈ msgs1 → p ∈ msgs1 →
       annotatedThread anns m = None → annotatedThread anns p = None →
       reply_to_turn m = Some (messageKey p) →
       listedBefore p m msgs1 = false →
       threadOf anns msgs1 m = None).
Proof.
  intros Hperm Hnd. split; [split|].
  - by apply threadOf_eq_same_side.
  - by apply threadOf_perm_eq.
  - intros m p. by apply threadOf_not_after_parent.
Qed.

Lemma C1_order_independent_witness :
  threadOf Scenario.labelA
    [Scenario.t1; Scenario.t2; Scenario.t3; Scenario.t4] Scenario.t3
  = threadOf Scenario.labelA
      [Scenario.t4; Scenario.t2; Scenario.t1; Scenario.t3] Scenario.t3.
Proof.
  assert (Hperm : [Scenario.t1; Scenario.t2; Scenario.t3; Scenario.t4]
                    ≡ₚ [Scenario.t4; Scenario.t2; Scenario.t1; Scenario.t3]).
  { etrans;
      [apply (Permutation_app_comm
                [Scenario.t1; Scenario.t2; Scenario.t3] [Scenario.t4])|].
    apply perm_skip, perm_swap. }
  assert (Hnd : NoDup (messageKey <$>
             [Scenario.t1; Scenario.t2; Scenario.t3; Scenario.t4]))
    by compute_done.
  destruct (C1_order_independent_iff_same_inheritance_order Scenario.labelA
              _ _ Hperm Hnd) as [[_ Hsame] _].
  apply Hsame. by vm_compute.
Defined.

(** C2, as stated, fails: the working set is resolved in the order in
    which it is listed, and with t3 listed before t2 the third pass
    reaches t3 before t2 has a thread: t3 stays unthreaded and the group
    of A holds t1 and t2 only. *)
Lemma C2_order_counterexample :
  [Scenario.t1; Scenario.t3; Scenario.t2]
    ≡ₚ [Scenario.t1; Scenario.t2; Scenario.t3]
  ∧ threadOf Scenario.labelA [Scenario.t1; Scenario.t3; Scenario.t2]
      Scenario.t3 = None
  ∧ unthreadedMessages Scenario.labelA
      [Scenario.t1; Scenario.t3; Scenario.t2] = [Scenario.t3]
  ∧ threadGroups Scenario.epoch Scenario.labelA
      [Scenario.t1; Scenario.t3; Scenario.t2] !! "A"
    = Some [Scenario.t1; Scenario.t2].
Proof.
  split; [|by vm_compute].
  apply perm_skip, perm_swap.
Qed.

(** C2 (amended): in the working set t1 <- t2 <- t3 with t1 bound to a
    thread, listed in any order, t1 and t2 are in the group of that
    thread; t3 is in it as well when t2 is listed before t3, and then no
    turn is unthreaded; otherwise t3 has no thread and is the one
    unthreaded turn. *)
Theorem C2_label_propagates_down_the_chain
    (getTime : string → option Z) (anns : option ThreadAnnotations)
    (msgs : list ChatMessage) (t1 t2 t3 : ChatMessage) (A : string) :
  msgs ≡ₚ [t1; t2; t3] →
  NoDup (messageKey <$> msgs) →
  annotatedThread anns t1 = Some A → JS.truthy A = true →
  annotatedThread anns t2 = None → annotatedThread anns t3 = None →
  reply_to_turn t2 = Some (messageKey t1) →
  reply_to_turn t3 = Some (messageKey t2) →
  threadOf anns msgs t1 = Some A
  ∧ threadOf anns msgs t2 = Some A
  ∧ (listedBefore t2 t3 msgs = true →
       threadOf anns msgs t3 = Some A
       ∧ (∃ g, threadGroups getTime anns msgs !! A = Some g
               ∧ g ≡ₚ [t1; t2; t3])
       ∧ unthreadedMessages anns msgs = [])
  ∧ (listedBefore t2 t3 msgs = false →
       threadOf anns msgs t3 = None
       ∧ (∃ g, threadGroups getTime anns msgs !! A = Some g
               ∧ g ≡ₚ [t1; t2])
       ∧ unthreadedMessages anns msgs = [t3]).
Proof.
  intros Hperm Hnd H1 HA H2 H3 Hr2 Hr3.
  assert (Hin : ∀ x, x ∈ msgs ↔ x = t1 ∨ x = t2 ∨ x = t3).
  { intros x. rewrite Hperm, !elem_of_cons, elem_of_nil. tauto. }
  assert (Hm1 : t1 ∈ msgs) by (apply Hin; tauto).
  assert (Hm2 : t2 ∈ msgs) by (apply Hin; tauto).
  assert (Hm3 : t3 ∈ msgs) by (apply Hin; tauto).
  assert (Hnd3 : NoDup [t1; t2; t3]).
  { rewrite <-Hperm. by apply NoDup_fmap_1 in Hnd. }
  assert (E1 : threadOf anns msgs t1 = Some A)
    by (by apply threadOf_annotated).
  assert (E2 : threadOf anns msgs t2 = Some A)
    by (by apply (threadOf_reply_to_annotated anns msgs t1 t2)).
  destruct (group_of_threaded getTime anns msgs A t1 Hnd Hm1 E1)
    as (g & Hg & _).
  split; [done|]. split; [done|]. split.
  - intros Hb.
    assert (E3 : threadOf anns msgs t3 = Some A).
    { apply (threadOf_reply anns msgs t3 t2 A); try done.
      split; [done|]. by right. }
    split; [done|]. split.
    + exists g. split; [done|].
      apply (group_perm getTime anns msgs A g); try done.
      intros x. rewrite Hin, !elem_of_cons, elem_of_nil. split.
      * intros [Hx|[Hx|[Hx|[]]]]; subst x; (split; [auto|done]).
      * intros [Hx _]. tauto.
    + apply elem_of_nil_inv. intros x [Hx Hnone]%elem_of_unthreaded.
      apply Hin in Hx. destruct Hx as [Hx|[Hx|Hx]]; subst x; congruence.
  - intros Hb.
    assert (E3 : threadOf anns msgs t3 = None)
      by (by apply (threadOf_not_after_parent anns msgs t3 t2)).
    split; [done|]. split.
    + exists g. split; [done|].
      apply (group_perm getTime anns msgs A g); try done.
      * apply NoDup_cons in Hnd3 as [Hn1 Hnd3].
        apply NoDup_cons in Hnd3 as [Hn2 _].
        apply NoDup_cons. split; [|by apply NoDup_singleton].
        rewrite not_elem_of_cons in Hn1. rewrite list_elem_of_singleton.
        tauto.
      * intros x. rewrite Hin, !elem_of_cons, elem_of_nil. split.
        -- intros [Hx|[Hx|[]]]; subst x; (split; [auto|done]).
        -- intros [[Hx|[Hx|Hx]] Ht]; subst x; [auto..|congruence].
    + apply Permutation_singleton_r. apply NoDup_Permutation.
      * apply NoDup_filter. by apply NoDup_fmap_1 in Hnd.
      * apply NoDup_singleton.
      * intros x. rewrite elem_of_unthreaded, Hin, list_elem_of_singleton.
        split.
        -- intros [[Hx|[Hx|Hx]] Ht]; subst x; congruence.
        -- intros ->. split; [auto|done].
Qed.

Lemma C2_scenario_witness :
  threadOf Scenario.labelA [Scenario.t2; Scenario.t1; Scenario.t3]
    Scenario.t3 = Some "A"
  ∧ unthreadedMessages Scenario.labelA
      [Scenario.t2; Scenario.t1; Scenario.t3] = [].
Proof.
  assert (Hperm : [Scenario.t2; Scenario.t1; Scenario.t3]
                    ≡ₚ [Scenario.t1; Scenario.t2; Scenario.t3])
    by apply perm_swap.
  assert (Hnd : NoDup (messageKey <$>
             [Scenario.t2; Scenario.t1; Scenario.t3]))
    by compute_done.
  destruct (C2_label_propagates_down_the_chain Scenario.epoch
              Scenario.labelA [Scenario.t2; Scenario.t1; Scenario.t3]
              Scenario.t1 Scenario.t2 Scenario.t3 "A" Hperm Hnd
              eq_refl eq_refl eq_refl eq_refl eq_refl eq_refl)
    as (_ & _ & Hordered & _).
  destruct (Hordered eq_refl) as (Ht3 & _ & Hnone).
  by split.
Defined.

(** C3, as stated, fails: the lookup takes the first match in the order of
    the thread groups and ignores creation time, source and confidence.
    With the imported annotation (created_at 1, thread X) listed before the
    manual one (created_at 2, thread Y), the winner on t2 is X. *)
Lemma C3_winner_counterexample :
  findAnnotationForMessage Scenario.duplicates Scenario.t2
    = Some ("X", Scenario.importX)
  ∧ a_created_at Scenario.importX = "1"
  ∧ a_source Scenario.importX = "import"
  ∧ a_created_at Scenario.manualY = "2"
  ∧ a_source Scenario.manualY = "manual"
  ∧ annotatedThread Scenario.duplicates Scenario.t2 ≠ Some "Y".
Proof. by vm_compute. Qed.

(** C3 (amended): for every turn the annotation used is the first one that
    matches the turn (by turn id or by message id) in the first thread
    group, in the order of the entries, that has a match; creation time,
    source and confidence play no part. *)
Theorem C3_first_match_wins
    (es : ThreadAnnotations) (m : ChatMessage) (t : string) (a : Annotation) :
  findAnnotationForMessage (Some es) m = Some (t, a) ↔
  ∃ es1 g1 g2 es2,
    es = es1 ++ (t, g1 ++ a :: g2) :: es2
    ∧ Forall (λ e, Forall (λ x, matchesMessage m x = false) e.2) es1
    ∧ Forall (λ x, matchesMessage m x = false) g1
    ∧ matchesMessage m a = true.
Proof.
  simpl. rewrite findInEntries_Some. split.
  - intros (es1 & g & es2 & -> & Hes1 & Hg).
    apply find_Some in Hg as (g1 & g2 & -> & Ha & Hg1).
    exists es1, g1, g2, es2. split; [done|]. split; [|done].
    eapply Forall_impl; [exact Hes1|]. intros e He. by apply find_None.
  - intros (es1 & g1 & g2 & es2 & -> & Hes1 & Hg1 & Ha).
    exists es1, (g1 ++ a :: g2), es2. split; [done|]. split.
    + eapply Forall_impl; [exact Hes1|]. intros e He. by apply find_None.
    + apply find_Some. by exists g1, g2.
Qed.

(** C4, as stated, fails: the assembly has no cycle detection.  On the
    reply cycle A <-> B without annotations its whole result is an empty
    set of thread groups and the two turns listed as unthreaded; nothing
    in it reports the cycle or names its turns. *)
Lemma C4_no_cycle_diagnostic_counterexample :
  reply_to_turn Scenario.cycA = Some (messageKey Scenario.cycB)
  ∧ reply_to_turn Scenario.cycB = Some (messageKey Scenario.cycA)
  ∧ view Scenario.epoch Scenario.noLabels [Scenario.cycA; Scenario.cycB]
    = {| threads := ∅; unthreaded := [Scenario.cycA; Scenario.cycB] |}.
Proof. by vm_compute. Qed.

(** C4 (amended): the turns of a reply cycle none of which has an
    annotation (more generally of any set of such turns closed under
    replies) all stay without a thread, are listed as unthreaded and are
    in no thread group.  The result consists of the thread groups and the
    unthreaded list only: no diagnostic is produced. *)
Theorem C4_unlabelled_cycle_unthreaded
    (getTime : string → option Z) (anns : option ThreadAnnotations)
    (msgs cyc : list ChatMessage) :
  NoDup (messageKey <$> msgs) →
  closedUnderReplies anns msgs cyc →
  ∀ c, c ∈ cyc →
    threadOf anns msgs c = None
    ∧ c ∈ unthreaded (view getTime anns msgs)
    ∧ ∀ t g, threads (view getTime anns msgs) !! t = Some g → c ∉ g.
Proof.
  intros Hnd Hcyc.
  unfold closedUnderReplies in Hcyc. rewrite Forall_forall in Hcyc.
  assert (Hnone : ∀ k, (∃ c, c ∈ cyc ∧ messageKey c = k) →
                       threadAnnotationMap (thirdPass anns msgs) !! k = None).
  { apply thirdPass_closed.
    - intros m Hm (c & Hc & Hk).
      destruct (Hcyc c Hc) as (Hcm & Hann & _).
      by rewrite (NoDup_key_inj msgs m c Hnd Hm Hcm (eq_sym Hk)).
    - intros m r Hm (c & Hc & Hk) Hr.
      destruct (Hcyc c Hc) as (Hcm & _ & Hex).
      rewrite (NoDup_key_inj msgs m c Hnd Hm Hcm (eq_sym Hk)) in Hr.
      apply Exists_exists in Hex as (p & Hp & Hrp).
      exists p. split; [done|]. congruence. }
  intros c Hc.
  assert (Ht : threadOf anns msgs c = None) by (apply Hnone; by exists c).
  destruct (Hcyc c Hc) as (Hcm & Hann & _).
  assert (Hun : c ∈ unthreadedMessages anns msgs)
    by (by apply elem_of_unthreaded).
  split; [done|]. split; [done|].
  intros t g. cbn [threads view]. by apply unthreaded_in_no_group.
Qed.

Lemma C4_unlabelled_cycle_witness :
  threadOf Scenario.noLabels [Scenario.cycA; Scenario.cycB] Scenario.cycA
    = None
  ∧ Scenario.cycA
      ∈ unthreaded (view Scenario.epoch Scenario.noLabels
                      [Scenario.cycA; Scenario.cycB]).
Proof.
  assert (Hnd : NoDup (messageKey <$> [Scenario.cycA; Scenario.cycB]))
    by compute_done.
  assert (Hcyc : closedUnderReplies Scenario.noLabels
                   [Scenario.cycA; Scenario.cycB]
                   [Scenario.cycA; Scenario.cycB])
    by compute_done.
  assert (Hc : Scenario.cycA ∈ [Scenario.cycA; Scenario.cycB])
    by compute_done.
  destruct (C4_unlabelled_cycle_unthreaded Scenario.epoch Scenario.noLabels
              [Scenario.cycA; Scenario.cycB] [Scenario.cycA; Scenario.cycB]
              Hnd Hcyc Scenario.cycA Hc) as (Ht & Hun & _).
  by split.
Defined.

(** C5, as stated, fails for descendants below the direct replies: a turn
    listed before its parent is read before the parent has inherited, and
    stays without a thread. *)
Lemma C5_descendant_counterexample :
  threadOf Scenario.labelsXY
    [Scenario.td; Scenario.tc; Scenario.tb; Scenario.ta] Scenario.tb
    = Some "Y"
  ∧ threadOf Scenario.labelsXY
      [Scenario.td; Scenario.tc; Scenario.tb; Scenario.ta] Scenario.tc
    = Some "Y"
  ∧ reply_to_turn Scenario.td = Some (messageKey Scenario.tc)
  ∧ annotatedThread Scenario.labelsXY Scenario.td = None
  ∧ threadOf Scenario.labelsXY
      [Scenario.td; Scenario.tc; Scenario.tb; Scenario.ta] Scenario.td
    = None.
Proof. by vm_compute. Qed.

(** C5 (amended): with A annotated to X and B replying to A, B without an
    annotation resolves to X; B with its own annotation to Y resolves to
    Y, and a turn below B along a chain of turns without annotation never
    takes another thread than Y: it takes Y when every turn of the chain
    after the first is listed after the one it replies to, and a turn not
    listed after a parent without annotation has no thread at all. *)
Theorem C5_explicit_label_overrides_inheritance
    (anns : option ThreadAnnotations) (msgs : list ChatMessage)
    (a b : ChatMessage) (X : string) :
  NoDup (messageKey <$> msgs) → a ∈ msgs → b ∈ msgs →
  annotatedThread anns a = Some X → JS.truthy X = true →
  reply_to_turn b = Some (messageKey a) →
  (annotatedThread anns b = None → threadOf anns msgs b = Some X)
  ∧ (∀ Y, annotatedThread anns b = Some Y →
       threadOf anns msgs b = Some Y
       ∧ (∀ cs d t, replyChain anns msgs b cs = true → d ∈ cs →
                    threadOf anns msgs d = Some t → t = Y)
       ∧ (JS.truthy Y = true →
          ∀ cs d, replyChain anns msgs b cs = true →
                  listedInOrder msgs cs = true → d ∈ cs →
                  threadOf anns msgs d = Some Y)
       ∧ (∀ c d, c ∈ msgs → d ∈ msgs →
            annotatedThread anns c = None → annotatedThread anns d = None →
            reply_to_turn d = Some (messageKey c) →
            listedBefore c d msgs = false →
            threadOf anns msgs d = None)).
Proof.
  intros Hnd Ha Hb HaX HX Hrb. split.
  - intros Hbn. by apply (threadOf_reply_to_annotated anns msgs a b).
  - intros Y HbY.
    assert (Ht : threadOf anns msgs b = Some Y)
      by (by apply threadOf_annotated).
    split; [done|]. split; [|split].
    + intros cs d t Hch Hd.
      apply (replyChain_thread anns msgs Y cs b); try done.
      * intros t'. rewrite Ht. by intros [= <-].
      * intros t'. rewrite HbY. by intros [= <-].
    + intros HY cs d Hch Hord Hd.
      apply (replyChain_inherits anns msgs Y cs b); try done. by left.
    + intros c d Hc Hd Hcn Hdn Hr Hbefore.
      by apply (threadOf_not_after_parent anns msgs d c).
Qed.

Lemma C5_override_witness :
  threadOf Scenario.labelsXY
    [Scenario.ta; Scenario.tc; Scenario.tb; Scenario.td] Scenario.tb
    = Some "Y"
  ∧ threadOf Scenario.labelsXY
      [Scenario.ta; Scenario.tc; Scenario.tb; Scenario.td] Scenario.td
    = Some "Y".
Proof.
  assert (Hnd : NoDup (messageKey <$>
             [Scenario.ta; Scenario.tc; Scenario.tb; Scenario.td]))
    by compute_done.
  assert (Ha : Scenario.ta
             ∈ [Scenario.ta; Scenario.tc; Scenario.tb; Scenario.td])
    by compute_done.
  assert (Hb : Scenario.tb
             ∈ [Scenario.ta; Scenario.tc; Scenario.tb; Scenario.td])
    by compute_done.
  destruct (C5_explicit_label_overrides_inheritance Scenario.labelsXY
              [Scenario.ta; Scenario.tc; Scenario.tb; Scenario.td]
              Scenario.ta Scenario.tb "X" Hnd Ha Hb
              eq_refl eq_refl eq_refl) as [_ HY].
  destruct (HY "Y" eq_refl) as (Hb' & _ & Hchain & _).
  split; [exact Hb'|].
  apply (Hchain eq_refl [Scenario.tc; Scenario.td] Scenario.td).
  - by vm_compute.
  - by vm_compute.
  - compute_done.
Defined.

(** C6, as stated, fails for the thread of a further ancestor: the parent
    supplied later is listed after the waiting turn, so the third pass
    reaches the waiting turn before the parent has inherited. *)
Lemma C6_late_parent_counterexample :
  threadOf Scenario.labelG [Scenario.tg; Scenario.tw] Scenario.tw = None
  ∧ threadOf Scenario.labelG [Scenario.tg; Scenario.tw; Scenario.tp]
      Scenario.tp = Some "A"
  ∧ reply_to_turn Scenario.tw = Some (messageKey Scenario.tp)
  ∧ threadOf Scenario.labelG [Scenario.tg; Scenario.tw; Scenario.tp]
      Scenario.tw = None.
Proof. by vm_compute. Qed.

(** C6 (amended): a turn without annotation whose [reply_to_turn] names
    no loaded turn stays without a thread and is listed as unthreaded.
    When the parent arrives on a later page, the recomputation over all
    loaded messages gives the waiting turn the thread of the parent if
    the parent has an annotation of its own, and leaves it unthreaded if
    the parent has none.  In any list order, a parent without annotation
    passes its thread on exactly when it is listed before the waiting
    turn. *)
Theorem C6_dangling_parent
    (anns : option ThreadAnnotations) (msgs later : list ChatMessage)
    (c : ChatMessage) (r : string) :
  NoDup (messageKey <$> (msgs ++ later)) → c ∈ msgs →
  annotatedThread anns c = None → reply_to_turn c = Some r →
  r ∉ messageKey <$> msgs →
  (threadOf anns msgs c = None ∧ c ∈ unthreadedMessages anns msgs)
  ∧ (∀ p, p ∈ later → messageKey p = r →
       (∀ X, annotatedThread anns p = Some X → JS.truthy X = true →
             threadOf anns (msgs ++ later) c = Some X)
       ∧ (annotatedThread anns p = None →
          threadOf anns (msgs ++ later) c = None
          ∧ c ∈ unthreadedMessages anns (msgs ++ later)))
  ∧ (∀ all p X, NoDup (messageKey <$> all) → c ∈ all → p ∈ all →
       messageKey p = r → annotatedThread anns p = None →
       (threadOf anns all c = Some X
        ↔ listedBefore p c all = true ∧ threadOf anns all p = Some X)).
Proof.
  intros Hnd Hc Hcn Hr Hdangling.
  assert (Hnd1 : NoDup (messageKey <$> msgs)).
  { rewrite fmap_app in Hnd. by apply NoDup_app in Hnd as [? _]. }
  assert (Hc' : c ∈ msgs ++ later) by (apply elem_of_app; by left).
  split; [|split].
  - assert (Ht : threadOf anns msgs c = None)
      by (by apply (threadOf_dangling anns msgs c r)).
    split; [done|]. by apply elem_of_unthreaded.
  - intros p Hp Hk. subst r.
    assert (Hp' : p ∈ msgs ++ later) by (apply elem_of_app; by right).
    split.
    + intros X HpX HX.
      by apply (threadOf_reply_to_annotated anns (msgs ++ later) p c).
    + intros Hpn.
      assert (Ht : threadOf anns (msgs ++ later) c = None).
      { apply (threadOf_not_after_parent anns (msgs ++ later) c p);
          try done.
        unfold listedBefore. apply bool_decide_eq_false.
        rewrite before_app_l by done. intros Hin.
        apply before_subseteq in Hin. apply Hdangling.
        by apply list_elem_of_fmap_2. }
      split; [done|]. by apply elem_of_unthreaded.
  - intros all p X Hnda Hca Hpa Hk Hpn. subst r.
    rewrite (threadOf_reply anns all c p X) by done. split.
    + intros [_ [Hann|Hb]]; [congruence|done].
    + intros [Hb Hp]. split; [|by right].
      by apply (threadOf_unannotated_truthy anns all p).
Qed.

Lemma C6_dangling_parent_witness :
  (threadOf Scenario.labelG [Scenario.tg; Scenario.tw] Scenario.tw = None
   ∧ Scenario.tw ∈ unthreadedMessages Scenario.labelG
                     [Scenario.tg; Scenario.tw])
  ∧ threadOf Scenario.labelG [Scenario.tg; Scenario.tw; Scenario.tp]
      Scenario.tw = None
  ∧ threadOf Scenario.labelG [Scenario.tg; Scenario.tp; Scenario.tw]
      Scenario.tw = Some "A".
Proof.
  assert (Hnd : NoDup (messageKey <$>
             ([Scenario.tg; Scenario.tw] ++ [Scenario.tp])))
    by compute_done.
  assert (Hc : Scenario.tw ∈ [Scenario.tg; Scenario.tw]) by compute_done.
  assert (Hdangling : "p" ∉ messageKey <$> [Scenario.tg; Scenario.tw])
    by compute_done.
  destruct (C6_dangling_parent Scenario.labelG [Scenario.tg; Scenario.tw]
              [Scenario.tp] Scenario.tw "p" Hnd Hc eq_refl eq_refl
              Hdangling) as (Hbefore & Hlater & Hany).
  split; [exact Hbefore|]. split.
  - assert (Hp : Scenario.tp ∈ [Scenario.tp]) by compute_done.
    destruct (Hlater Scenario.tp Hp eq_refl) as [_ Hwaits].
    by destruct (Hwaits eq_refl) as [Hnone _].
  - assert (Hnd' : NoDup (messageKey <$>
               [Scenario.tg; Scenario.tp; Scenario.tw]))
      by compute_done.
    assert (Hc' : Scenario.tw ∈ [Scenario.tg; Scenario.tp; Scenario.tw])
      by compute_done.
    assert (Hp' : Scenario.tp ∈ [Scenario.tg; Scenario.tp; Scenario.tw])
      by compute_done.
    apply (Hany [Scenario.tg; Scenario.tp; Scenario.tw] Scenario.tp "A"
             Hnd' Hc' Hp' eq_refl eq_refl).
    split; by vm_compute.
Defined.


(** C8, as stated, fails for the tie-break: a group holds the annotated
    turns first and the inheriting turns after them, and the stable sort
    keeps that order among equal timestamps.  Here s1 is loaded before s2
    and has the same timestamp, yet it comes after s2 in the group. *)
Lemma C8_tie_break_counterexample :
  threadGroups Scenario.epoch Scenario.labelS
    [Scenario.s0; Scenario.s1; Scenario.s2] !! "A"
    = Some [Scenario.s0; Scenario.s2; Scenario.s1]
  ∧ messageTime Scenario.epoch Scenario.s1
    = messageTime Scenario.epoch Scenario.s2.
Proof. by vm_compute. Qed.

(** C8 (amended): the unthreaded list holds the turns without a thread,
    in list order, and when the timestamps of the loaded turns are valid
    dates every group is in ascending order of time.  For turns with
    distinct keys, the group of a thread holds exactly the loaded turns
    resolved to that thread, and, the dates being valid, turns with equal
    times keep the order in which the group was filled: the annotated
    turns in list order, followed by the inheriting turns in list
    order. *)
Theorem C8_groups_sorted_by_time
    (getTime : string → option Z) (anns : option ThreadAnnotations)
    (msgs : list ChatMessage) :
  unthreadedMessages anns msgs
    = filter (λ m, threadOf anns msgs m = None) msgs
  ∧ ((∀ m, m ∈ msgs → is_Some (messageTime getTime m)) →
     ∀ t g, threadGroups getTime anns msgs !! t = Some g →
            StronglySorted (timeLe getTime) g)
  ∧ (NoDup (messageKey <$> msgs) →
     (∀ t g, threadGroups getTime anns msgs !! t = Some g →
        (∀ m, m ∈ g ↔ m ∈ msgs ∧ threadOf anns msgs m = Some t)
        ∧ ((∀ m, m ∈ msgs → is_Some (messageTime getTime m)) →
           ∀ v, filter (λ m, messageTime getTime m = Some v) g
                = filter (λ m, messageTime getTime m = Some v)
                    (explicitIn anns msgs t ++ inheritedIn anns msgs t)))
     ∧ (∀ t m, m ∈ msgs → threadOf anns msgs m = Some t →
          ∃ g, threadGroups getTime anns msgs !! t = Some g ∧ m ∈ g)).
Proof.
  split; [done|]. split.
  - intros Hvalid t g. rewrite threadGroups_lookup.
    destruct (messageThreads (thirdPass anns msgs) !! t) as [g0|] eqn:Hg0;
      [|done].
    intros [= <-]. apply sortByTime_sorted.
    apply Forall_forall. intros x Hx. apply Hvalid.
    by apply (thirdPass_groups_loaded anns msgs t g0).
  - intros Hnd. split.
    + intros t g Hg.
      split; [intros m; by apply (elem_of_group getTime anns)|].
      intros _. rewrite (threadGroups_Some getTime anns msgs t g Hnd Hg).
      intros v. apply sortByTime_stable.
    + intros t m. by apply group_of_threaded.
Qed.

Lemma C8_groups_sorted_witness :
  StronglySorted (timeLe Scenario.epoch)
    [Scenario.s0; Scenario.s2; Scenario.s1]
  ∧ ∀ m, m ∈ [Scenario.s0; Scenario.s2; Scenario.s1]
         ↔ m ∈ [Scenario.s0; Scenario.s1; Scenario.s2]
           ∧ threadOf Scenario.labelS
               [Scenario.s0; Scenario.s1; Scenario.s2] m = Some "A".
Proof.
  destruct (C8_groups_sorted_by_time Scenario.epoch Scenario.labelS
              [Scenario.s0; Scenario.s1; Scenario.s2])
    as (_ & Hsorted & Hdistinct).
  assert (Hg : threadGroups Scenario.epoch Scenario.labelS
                 [Scenario.s0; Scenario.s1; Scenario.s2] !! "A"
               = Some [Scenario.s0; Scenario.s2; Scenario.s1])
    by (by vm_compute).
  split.
  - apply (Hsorted) with (t := "A"); [|exact Hg].
    intros m Hm.
    repeat (apply elem_of_cons in Hm as [->|Hm]; [vm_compute; by eexists|]).
    by apply elem_of_nil in Hm.
  - assert (Hnd : NoDup (messageKey
                           <$> [Scenario.s0; Scenario.s1; Scenario.s2]))
      by compute_done.
    destruct (Hdistinct Hnd) as [Hgroups _].
    by destruct (Hgroups "A" [Scenario.s0; Scenario.s2; Scenario.s1] Hg)
      as [Hmem _].
Defined.

(** C9, as stated, fails when two loaded messages share a key: the second
    pass writes the thread map once per annotated message, and a message
    whose key is already mapped is neither appended to a group nor listed
    as unthreaded. *)
Lemma C9_shared_key_counterexample :
  messageKey Scenario.k1 = messageKey Scenario.k2
  ∧ Scenario.k2 ∈ [Scenario.k1; Scenario.k2]
  ∧ (∀ t g, threadGroups Scenario.epoch Scenario.labelK
              [Scenario.k1; Scenario.k2] !! t = Some g →
            Scenario.k2 ∉ g)
  ∧ Scenario.k2
      ∉ unthreadedMessages Scenario.labelK [Scenario.k1; Scenario.k2].
Proof.
  split; [done|]. split; [compute_done|]. split.
  - assert (E : threadGroups Scenario.epoch Scenario.labelK
                  [Scenario.k1; Scenario.k2] = {[ "X" := [Scenario.k1] ]})
      by (by vm_compute).
    rewrite E. intros t g Hg.
    apply lookup_singleton_Some in Hg as [_ <-].
    rewrite list_elem_of_singleton. discriminate.
  - compute_done.
Qed.

(** C9 (amended): every message is in at most one thread group, and a
    message listed as unthreaded is in no group.  When the loaded messages
    have distinct keys, the groups and the unthreaded list partition them:
    a loaded message in no group is listed as unthreaded, a group holds a
    message at most once, and it holds exactly the loaded messages whose
    key the thread map sends to its thread. *)
Theorem C9_groups_partition_messages
    (getTime : string → option Z) (anns : option ThreadAnnotations)
    (msgs : list ChatMessage) :
  (∀ m t t' g g',
     threadGroups getTime anns msgs !! t = Some g →
     threadGroups getTime anns msgs !! t' = Some g' →
     m ∈ g → m ∈ g' → t = t')
  ∧ (∀ m, m ∈ unthreadedMessages anns msgs →
       m ∈ msgs
       ∧ ∀ t g, threadGroups getTime anns msgs !! t = Some g → m ∉ g)
  ∧ (NoDup (messageKey <$> msgs) →
     (∀ m, m ∈ msgs →
        (∀ t g, threadGroups getTime anns msgs !! t = Some g → m ∉ g) →
        m ∈ unthreadedMessages anns msgs)
     ∧ (∀ t g, threadGroups getTime anns msgs !! t = Some g →
          NoDup g
          ∧ ∀ m, m ∈ g ↔ m ∈ msgs ∧ threadOf anns msgs m = Some t)
     ∧ NoDup (unthreadedMessages anns msgs)).
Proof.
  split; [|split].
  - intros m t t' g g'. apply group_unique.
  - intros m Hm. split.
    + by apply elem_of_unthreaded in Hm as [? _].
    + intros t g. by apply unthreaded_in_no_group.
  - intros Hnd. split; [|split].
    + intros m Hm Hno. apply elem_of_unthreaded. split; [done|].
      destruct (threadOf anns msgs m) as [t|] eqn:Ht; [|done].
      destruct (group_of_threaded getTime anns msgs t m Hnd Hm Ht)
        as (g & Hg & Hin).
      by destruct (Hno t g Hg).
    + intros t g Hg. split.
      * rewrite (threadGroups_Some getTime anns msgs t g Hnd Hg).
        rewrite sortByTime_perm. by apply NoDup_population.
      * intros m. by apply (elem_of_group getTime anns).
    + apply NoDup_filter. by apply NoDup_fmap_1 in Hnd.
Qed.

Lemma C9_partition_witness :
  NoDup [Scenario.s0; Scenario.s2; Scenario.s1]
  ∧ NoDup (unthreadedMessages Scenario.labelS
             [Scenario.s0; Scenario.s1; Scenario.s2]).
Proof.
  destruct (C9_groups_partition_messages Scenario.epoch Scenario.labelS
              [Scenario.s0; Scenario.s1; Scenario.s2])
    as (_ & _ & Hdistinct).
  assert (Hnd : NoDup (messageKey <$> [Scenario.s0; Scenario.s1; Scenario.s2]))
    by compute_done.
  destruct (Hdistinct Hnd) as (_ & Hgroups & Hun).
  split; [|exact Hun].
  assert (Hg : threadGroups Scenario.epoch Scenario.labelS
                 [Scenario.s0; Scenario.s1; Scenario.s2] !! "A"
               = Some [Scenario.s0; Scenario.s2; Scenario.s1])
    by (by vm_compute).
  by destruct (Hgroups "A" [Scenario.s0; Scenario.s2; Scenario.s1] Hg).
Defined.

(** C10 fails on the code: the other ChatView divides the entered
    percentage by 100 in the submit handler and again in the mutation,
    while the admin UI copy converts it once.  For an entered confidence of
    50, which both forms accept, the copy sends 0.5 and the other view
    0.005. *)
Theorem C10_confidence_converted_twice :
  AnnotationForm.validate_copy Scenario.form50 = true
  ∧ AnnotationForm.validate_variant Scenario.form50 = true
  ∧ AnnotationForm.c_confidence
      <$> AnnotationForm.handleCreateAnnotation_copy (Some Scenario.t1)
            Scenario.form50
    = Some 0.5%float
  ∧ AnnotationForm.c_confidence
      <$> AnnotationForm.handleCreateAnnotation_variant (Some Scenario.t1)
            Scenario.form50
    = Some (PrimFloat.div 0.5 100)
  ∧ PrimFloat.ltb (PrimFloat.div 0.5 100) 0.5 = true.
Proof. by vm_compute. Qed.

(** * Further properties of the code *)

(** ** Strings *)

#[local] Arguments String.append _ _ : simpl nomatch.

Section Strings.
Implicit Types (s t n k : string) (c : ascii).

Lemma append_nil_r s : s +:+ EmptyString = s.
Proof. induction s as [|c s IH]; simpl; [done|by rewrite IH]. Qed.

Lemma append_assoc s t n : (s +:+ t) +:+ n = s +:+ (t +:+ n).
Proof. induction s as [|c s IH]; simpl; [done|by rewrite IH]. Qed.

Lemma chars_append s t :
  list_ascii_of_string (s +:+ t)
  = list_ascii_of_string s ++ list_ascii_of_string t.
Proof. induction s as [|c s IH]; simpl; [done|by rewrite IH]. Qed.

Lemma trimStart_chars s c :
  c ∈ list_ascii_of_string (JSString.trimStart s) → c ∈ list_ascii_of_string s.
Proof.
  induction s as [|c0 s IH]; simpl; [done|].
  destruct (JSString.isWhiteSpace c0); [|done].
  intros Hc. right. by apply IH.
Qed.

Lemma trimEnd_chars s c :
  c ∈ list_ascii_of_string (JSString.trimEnd s) → c ∈ list_ascii_of_string s.
Proof.
  induction s as [|c0 s IH]; simpl; [done|].
  destruct (JSString.trimEnd s) as [|c1 r] eqn:E.
  - destruct (JSString.isWhiteSpace c0); simpl; [by intros ?%elem_of_nil|].
    intros Hc. apply elem_of_cons in Hc as [->|Hc]; [by left|].
    by apply elem_of_nil in Hc.
  - simpl. intros Hc. apply elem_of_cons in Hc as [->|Hc]; [by left|].
    right. by apply IH.
Qed.

Lemma trim_chars s c :
  c ∈ list_ascii_of_string (JSString.trim s) → c ∈ list_ascii_of_string s.
Proof. intros Hc. by apply trimStart_chars, trimEnd_chars. Qed.

Lemma trimStart_idem s :
  JSString.trimStart (JSString.trimStart s) = JSString.trimStart s.
Proof.
  induction s as [|c s IH]; simpl; [done|].
  destruct (JSString.isWhiteSpace c) eqn:E; [done|]. simpl. by rewrite E.
Qed.

Lemma trimEnd_cons c s :
  JSString.trimEnd (String c s) =
  match JSString.trimEnd s with
  | EmptyString =>
      if JSString.isWhiteSpace c then EmptyString else String c EmptyString
  | r => String c r
  end.
Proof. done. Qed.

Lemma trimEnd_idem s :
  JSString.trimEnd (JSString.trimEnd s) = JSString.trimEnd s.
Proof.
  induction s as [|c s IH]; [done|]. rewrite trimEnd_cons.
  destruct (JSString.trimEnd s) as [|c1 r] eqn:E.
  - destruct (JSString.isWhiteSpace c) eqn:Ec; simpl; [done|]. by rewrite Ec.
  - by rewrite (trimEnd_cons c (String c1 r)), IH.
Qed.

(** A string that does not start with white space still does not after
    [trimEnd]. *)
Lemma trimStart_trimEnd s :
  JSString.trimStart s = s →
  JSString.trimStart (JSString.trimEnd s) = JSString.trimEnd s.
Proof.
  destruct s as [|c s]; [done|]. simpl.
  destruct (JSString.isWhiteSpace c) eqn:Ec.
  - intros Hs. exfalso.
    assert (Hlen : String.length (JSString.trimStart s) = S (String.length s))
      by (by rewrite Hs).
    clear Hs. revert Hlen.
    assert (Hle : ∀ u, (String.length (JSString.trimStart u)
                        <= String.length u)%nat).
    { induction u as [|c0 u IH]; simpl; [done|].
      destruct (JSString.isWhiteSpace c0); simpl; lia. }
    specialize (Hle s). lia.
  - intros _. destruct (JSString.trimEnd s); simpl; by rewrite Ec.
Qed.

Lemma trim_idem s : JSString.trim (JSString.trim s) = JSString.trim s.
Proof.
  unfold JSString.trim.
  rewrite (trimStart_trimEnd (JSString.trimStart s)) by apply trimStart_idem.
  apply trimEnd_idem.
Qed.

(** A string without white space is its own [trim]. *)
Lemma trim_no_whitespace s :
  forallb (λ c, negb (JSString.isWhiteSpace c)) (list_ascii_of_string s) = true →
  JSString.trim s = s.
Proof.
  intros Hs. unfold JSString.trim.
  assert (Hstart : JSString.trimStart s = s).
  { destruct s as [|c s]; [done|]. simpl in *.
    apply andb_true_iff in Hs as [Hc _]. apply negb_true_iff in Hc.
    by rewrite Hc. }
  rewrite Hstart. clear Hstart.
  induction s as [|c s IH]; [done|]. simpl in *.
  apply andb_true_iff in Hs as [Hc Hs]. apply negb_true_iff in Hc.
  rewrite IH by done. rewrite Hc. by destruct s.
Qed.

Lemma prefix_spec n s :
  String.prefix n s = true ↔ ∃ post, s = n +:+ post.
Proof.
  revert s. induction n as [|c n IH]; intros s.
  - destruct s; simpl; (split; [by eexists|done]).
  - destruct s as [|c' s]; simpl; [split; [done|by intros [? ?]]|].
    destruct (Ascii.ascii_dec c c') as [->|Hne].
    + rewrite IH. split.
      * intros [post ->]. by exists post.
      * intros [post [= ->]]. by exists post.
    + split; [done|]. intros [post [= ? _]]. congruence.
Qed.

Lemma includes_nil n :
  JSString.includes EmptyString n = String.prefix n EmptyString.
Proof. unfold JSString.includes. apply orb_false_r. Qed.

Lemma includes_cons c s n :
  JSString.includes (String c s) n
  = String.prefix n (String c s) || JSString.includes s n.
Proof. done. Qed.

Lemma includes_spec s n :
  JSString.includes s n = true ↔ ∃ pre post, s = pre +:+ (n +:+ post).
Proof.
  induction s as [|c s IH].
  - rewrite includes_nil, prefix_spec. split.
    + intros [post ->]. by exists EmptyString, post.
    + intros (pre & post & H). destruct pre; [by exists post|done].
  - rewrite includes_cons, orb_true_iff, prefix_spec, IH. split.
    + intros [[post ->]|(pre & post & ->)].
      * by exists EmptyString, post.
      * by exists (String c pre), post.
    + intros (pre & post & H). destruct pre as [|c' pre]; simpl in H.
      * left. by exists post.
      * injection H as -> ->. right. by exists pre, post.
Qed.

Lemma includes_trans s n k :
  JSString.includes s n = true → JSString.includes n k = true →
  JSString.includes s k = true.
Proof.
  rewrite !includes_spec. intros (p1 & q1 & ->) (p2 & q2 & ->).
  exists (p1 +:+ p2), (q2 +:+ q1). by rewrite !append_assoc.
Qed.

Lemma includes_refl s : JSString.includes s s = true.
Proof.
  apply includes_spec. exists EmptyString, EmptyString.
  simpl. by rewrite append_nil_r.
Qed.

End Strings.

(** ** The annotation lookup and the thread groups, for any keys *)

Section Lookup.
Implicit Types (m x : ChatMessage) (es : ThreadAnnotations).

Lemma findInEntries_None es m :
  findInEntries es m = None ↔
  ∀ t g a, (t, g) ∈ es → a ∈ g → matchesMessage m a = false.
Proof.
  induction es as [|[t0 g0] es IH]; simpl.
  - split; [|done]. intros _ t g a Hin. by apply elem_of_nil in Hin.
  - destruct (find (matchesMessage m) g0) as [a0|] eqn:E.
    + split; [done|]. intros Hall.
      apply find_Some in E as (g1 & g2 & -> & Ha & _).
      rewrite (Hall t0 (g1 ++ a0 :: g2) a0) in Ha; [done|by left|].
      apply elem_of_app. right. by left.
    + rewrite IH. apply find_None in E. rewrite Forall_forall in E. split.
      * intros Hall t g a Hin Ha.
        apply elem_of_cons in Hin as [[= -> ->]|Hin]; [by apply E|].
        by apply (Hall t g).
      * intros Hall t g a Hin Ha. apply (Hall t g); [by right|done].
Qed.

End Lookup.

(** X1: a message has an annotation exactly when the annotations are loaded
    and some annotation of some thread group refers to it, by turn id or by
    message id. *)
Theorem X1_annotation_found_iff_some_match
    (anns : option ThreadAnnotations) (m : ChatMessage) :
  is_Some (findAnnotationForMessage anns m) ↔
  ∃ es t g a, anns = Some es ∧ (t, g) ∈ es ∧ a ∈ g
              ∧ matchesMessage m a = true.
Proof.
  destruct anns as [es|]; simpl.
  - split.
    + intros [[t a] Hfound].
      apply findInEntries_Some in Hfound as (es1 & g & es2 & -> & _ & Hg).
      apply find_Some in Hg as (g1 & g2 & -> & Ha & _).
      exists (es1 ++ (t, g1 ++ a :: g2) :: es2), t, (g1 ++ a :: g2), a.
      split; [done|]. split; [apply elem_of_app; right; by left|].
      split; [apply elem_of_app; right; by left|done].
    + intros (es' & t & g & a & [= <-] & Hin & Ha & Hmatch).
      destruct (findInEntries es m) as [r|] eqn:E; [by eexists|].
      rewrite findInEntries_None in E.
      by rewrite (E t g a Hin Ha) in Hmatch.
  - split; [by intros [? ?]|]. by intros (es & t & g & a & ? & _).
Qed.

Section AnyKeys.
Context (anns : option ThreadAnnotations).
Implicit Types (m x : ChatMessage) (l msgs g : list ChatMessage).
Implicit Types (st : Threads) (t k : string) (mm : gmap string ChatMessage).

(** Every thread id in the thread map is the thread of an annotated
    message. *)
Lemma annotate_tam_values msgs l st :
  (∀ m, m ∈ l → m ∈ msgs) →
  (∀ k t, threadAnnotationMap st !! k = Some t →
          ∃ m, m ∈ msgs ∧ annotatedThread anns m = Some t) →
  ∀ k t, threadAnnotationMap (foldl (annotateStep anns) st l) !! k = Some t →
         ∃ m, m ∈ msgs ∧ annotatedThread anns m = Some t.
Proof.
  revert st. induction l as [|m l IH]; intros st Hl Hst; [done|].
  simpl. apply IH; [intros x Hx; apply Hl; by right|].
  intros k t. rewrite annotateStep_eq.
  destruct (annotatedThread anns m) as [t0|] eqn:E; [|by apply Hst].
  simpl. destruct (decide (messageKey m = k)) as [<-|Hne].
  - rewrite lookup_insert_eq. intros [= <-]. exists m.
    split; [apply Hl; by left|done].
  - rewrite lookup_insert_ne by done. by apply Hst.
Qed.

Lemma reply_tam_values mm msgs l st :
  (∀ k t, threadAnnotationMap st !! k = Some t →
          ∃ m, m ∈ msgs ∧ annotatedThread anns m = Some t) →
  ∀ k t, threadAnnotationMap (foldl (replyStep mm) st l) !! k = Some t →
         ∃ m, m ∈ msgs ∧ annotatedThread anns m = Some t.
Proof.
  revert st. induction l as [|m l IH]; intros st Hst; [done|].
  simpl. apply IH. intros k t. rewrite replyStep_eq.
  destruct (inheritFrom mm (threadAnnotationMap st) m) as [t0|] eqn:E;
    [|by apply Hst].
  simpl. destruct (decide (messageKey m = k)) as [<-|Hne].
  - rewrite lookup_insert_eq. intros [= <-].
    unfold inheritFrom in E.
    destruct (threadAnnotationMap st !! messageKey m); [done|].
    apply parentThread_Some in E as (r & p & _ & _ & _ & Hp & _).
    by apply (Hst (messageKey p)).
  - rewrite lookup_insert_ne by done. by apply Hst.
Qed.

Lemma thirdPass_tam_values msgs k t :
  threadAnnotationMap (thirdPass anns msgs) !! k = Some t →
  ∃ m, m ∈ msgs ∧ annotatedThread anns m = Some t.
Proof.
  unfold thirdPass. apply reply_tam_values.
  unfold secondPass. apply annotate_tam_values; [done|].
  intros k' t'. unfold emptyThreads. cbn [threadAnnotationMap].
  by rewrite lookup_empty.
Qed.

(** The third pass only appends to the groups. *)
Lemma reply_groups_grow mm l st t g0 :
  messageThreads st !! t = Some g0 →
  ∃ g1, messageThreads (foldl (replyStep mm) st l) !! t = Some (g0 ++ g1).
Proof.
  revert st g0. induction l as [|m l IH]; intros st g0 Hg0.
  - exists []. by rewrite app_nil_r.
  - simpl. rewrite replyStep_eq.
    destruct (inheritFrom mm (threadAnnotationMap st) m) as [t0|];
      [|by apply IH].
    destruct (decide (t0 = t)) as [->|Hne].
    + destruct (IH {| messageThreads := pushTo t m (messageThreads st);
                      threadAnnotationMap :=
                        <[messageKey m := t]> (threadAnnotationMap st) |}
                   (g0 ++ [m])) as [g1 Hg1].
      { simpl. rewrite pushTo_lookup, decide_True by done.
        by rewrite Hg0. }
      exists ([m] ++ g1). by rewrite app_assoc.
    + apply IH. simpl. by rewrite pushTo_lookup, decide_False.
Qed.

(** An annotated message is in the group of its annotation. *)
Lemma annotated_in_group msgs m t :
  m ∈ msgs → annotatedThread anns m = Some t →
  ∃ g, messageThreads (thirdPass anns msgs) !! t = Some g ∧ m ∈ g.
Proof.
  intros Hm Hann.
  assert (Hin : m ∈ filter (λ x, annotatedThread anns x = Some t) msgs)
    by (by apply list_elem_of_filter).
  assert (H2 : messageThreads (secondPass anns msgs) !! t
               = Some (filter (λ x, annotatedThread anns x = Some t) msgs)).
  { unfold secondPass. rewrite annotate_groups.
    unfold emptyThreads. cbn [messageThreads]. rewrite lookup_empty.
    destruct (filter (λ x, annotatedThread anns x = Some t) msgs);
      [by apply elem_of_nil in Hin|done]. }
  destruct (reply_groups_grow (buildMessageMap msgs) msgs _ t _ H2)
    as [g1 Hg1].
  eexists. split; [exact Hg1|]. apply elem_of_app. by left.
Qed.

End AnyKeys.

Lemma filter_all {A} (P : A → Prop) `{!∀ x, Decision (P x)} (l : list A) :
  (∀ x, x ∈ l → P x) → filter P l = l.
Proof.
  induction l as [|a l IH]; intros Hall; [done|].
  rewrite filter_cons_True by (apply Hall; by left).
  rewrite IH; [done|]. intros x Hx. apply Hall. by right.
Qed.

(** X2: while no loaded message has an annotation (the annotations are
    not loaded yet, or none refers to a loaded message), the view has no
    thread group and lists every message as unthreaded, in the order
    loaded. *)
Theorem X2_no_annotation_no_threads
    (getTime : string → option Z) (anns : option ThreadAnnotations)
    (msgs : list ChatMessage) :
  (∀ m, m ∈ msgs → annotatedThread anns m = None) →
  threadGroups getTime anns msgs = ∅
  ∧ unthreadedMessages anns msgs = msgs.
Proof.
  intros Hnone. split.
  - apply map_eq. intros t. rewrite lookup_empty, threadGroups_lookup.
    destruct (messageThreads (thirdPass anns msgs) !! t) as [g|] eqn:E;
      [|done].
    exfalso. destruct (thirdPass_groups_loaded anns msgs t g E) as [Hne Hin].
    destruct g as [|x g]; [done|].
    assert (Hx : x ∈ x :: g) by (by left).
    destruct (thirdPass_placed anns msgs t (x :: g) x E Hx)
      as [Hann|[_ Hmap]].
    + rewrite Hnone in Hann; [done|by apply Hin].
    + apply thirdPass_tam_values in Hmap as (m & Hm & Hann).
      by rewrite Hnone in Hann.
  - apply filter_all. intros m Hm.
    apply (thirdPass_closed anns (λ _, True)); [|done..].
    intros x Hx _. by apply Hnone.
Qed.

Lemma X2_no_annotation_witness :
  threadGroups Scenario.epoch None [Scenario.t1; Scenario.t2] = ∅
  ∧ unthreadedMessages None [Scenario.t1; Scenario.t2]
    = [Scenario.t1; Scenario.t2].
Proof.
  apply X2_no_annotation_no_threads. intros m _. reflexivity.
Defined.

(** X3: every thread group of the view is non-empty, holds loaded messages
    only, and contains a message annotated with the thread of the group,
    whose id is a key of the loaded thread annotations: the view never
    shows a thread no annotation names. *)
Theorem X3_groups_come_from_annotations
    (getTime : string → option Z) (anns : option ThreadAnnotations)
    (msgs : list ChatMessage) (t : string) (g : list ChatMessage) :
  threadGroups getTime anns msgs !! t = Some g →
  g ≠ []
  ∧ (∀ x, x ∈ g → x ∈ msgs)
  ∧ (∃ m, m ∈ g ∧ annotatedThread anns m = Some t)
  ∧ ∃ es annotations, anns = Some es ∧ (t, annotations) ∈ es.
Proof.
  rewrite threadGroups_lookup.
  destruct (messageThreads (thirdPass anns msgs) !! t) as [g0|] eqn:E;
    [|done].
  intros [= <-].
  destruct (thirdPass_groups_loaded anns msgs t g0 E) as [Hne Hin].
  assert (Hm : ∃ m, m ∈ g0 ∧ annotatedThread anns m = Some t).
  { destruct g0 as [|x g0]; [done|].
    assert (Hx : x ∈ x :: g0) by (by left).
    destruct (thirdPass_placed anns msgs t (x :: g0) x E Hx)
      as [Hann|[_ Hmap]]; [by exists x|].
    apply thirdPass_tam_values in Hmap as (m & Hm & Hann).
    destruct (annotated_in_group anns msgs m t Hm Hann) as (g' & Hg' & Hmg).
    exists m. split; [|done]. congruence. }
  split; [|split; [|split]].
  - intros Hnil. apply (f_equal length) in Hnil.
    rewrite (Permutation_length (sortByTime_perm getTime g0)) in Hnil.
    by destruct g0.
  - intros x. rewrite sortByTime_perm. apply Hin.
  - destruct Hm as (m & Hm & Hann). exists m.
    by rewrite sortByTime_perm.
  - destruct Hm as (m & _ & Hann). unfold annotatedThread in Hann.
    destruct (findAnnotationForMessage anns m) as [[t' a]|] eqn:Ef; [|done].
    injection Hann as ->. destruct anns as [es|]; [|done]. simpl in Ef.
    apply findInEntries_Some in Ef as (es1 & g' & es2 & -> & _ & _).
    eexists _, g'. split; [done|]. apply elem_of_app. right. by left.
Qed.

Lemma X3_groups_witness :
  [Scenario.s0; Scenario.s2; Scenario.s1] ≠ []
  ∧ (∀ x, x ∈ [Scenario.s0; Scenario.s2; Scenario.s1] →
          x ∈ [Scenario.s0; Scenario.s1; Scenario.s2])
  ∧ (∃ m, m ∈ [Scenario.s0; Scenario.s2; Scenario.s1]
          ∧ annotatedThread Scenario.labelS m = Some "A")
  ∧ ∃ es annotations,
      Scenario.labelS = Some es ∧ ("A", annotations) ∈ es.
Proof.
  apply (X3_groups_come_from_annotations Scenario.epoch Scenario.labelS
           [Scenario.s0; Scenario.s1; Scenario.s2] "A").
  by vm_compute.
Defined.

(** X4: with distinct keys, a message that is threaded without an
    annotation of its own replies to a loaded message that is in the same
    thread, and the id of that thread is not empty. *)
Theorem X4_inherited_thread_is_the_parents
    (anns : option ThreadAnnotations) (msgs : list ChatMessage)
    (m : ChatMessage) (t : string) :
  NoDup (messageKey <$> msgs) → m ∈ msgs →
  annotatedThread anns m = None →
  threadOf anns msgs m = Some t →
  JS.truthy t = true
  ∧ ∃ p, p ∈ msgs ∧ reply_to_turn m = Some (messageKey p)
         ∧ threadOf anns msgs p = Some t.
Proof.
  intros Hnd Hm Hann Ht.
  destruct (list_elem_of_split _ _ Hm) as (l1 & l2 & ->).
  rewrite threadOf_unannotated in Ht by done.
  apply parentThread_Some in Ht as (r & p & Hr & _ & Hp & Hpt & Htt).
  split; [done|].
  apply messageMap_Some in Hp as [Hp <-].
  exists p. split; [done|]. split; [done|].
  unfold threadOf, thirdPass. rewrite foldl_app.
  by apply reply_tam_mono.
Qed.

Lemma X4_inherited_witness :
  JS.truthy "A" = true
  ∧ ∃ p, p ∈ [Scenario.t1; Scenario.t2; Scenario.t3]
         ∧ reply_to_turn Scenario.t3 = Some (messageKey p)
         ∧ threadOf Scenario.labelA
             [Scenario.t1; Scenario.t2; Scenario.t3] p = Some "A".
Proof.
  apply (X4_inherited_thread_is_the_parents Scenario.labelA
           [Scenario.t1; Scenario.t2; Scenario.t3] Scenario.t3 "A").
  - compute_done.
  - compute_done.
  - reflexivity.
  - reflexivity.
Defined.

(** ** Threads while more pages are loaded *)

Section LoadMore.
Context (anns : option ThreadAnnotations).
Implicit Types (m x p : ChatMessage) (l msgs extra : list ChatMessage).
Implicit Types (st : Threads) (mm : gmap string ChatMessage).

(** Two runs of the third pass over the same messages, the second one
    starting from a thread map that extends the first and from a message
    map that agrees on the loaded parents: the second thread map keeps
    extending the first. *)
Lemma reply_extends (mm1 mm2 : gmap string ChatMessage) l (st1 st2 : Threads) :
  NoDup (messageKey <$> l) →
  (∀ r p, mm1 !! r = Some p → mm2 !! r = Some p) →
  (∀ k t, threadAnnotationMap st1 !! k = Some t →
          threadAnnotationMap st2 !! k = Some t) →
  (∀ x, x ∈ l → threadAnnotationMap st1 !! messageKey x = None →
        threadAnnotationMap st2 !! messageKey x = None) →
  ∀ k t, threadAnnotationMap (foldl (replyStep mm1) st1 l) !! k = Some t →
         threadAnnotationMap (foldl (replyStep mm2) st2 l) !! k = Some t.
Proof.
  intros Hnd Hmm. revert st1 st2 Hnd.
  induction l as [|x l IH]; intros st1 st2 Hnd Hext Hfresh; [done|].
  rewrite fmap_cons in Hnd. apply NoDup_cons in Hnd as [Hx Hnd].
  simpl. apply IH; [done| |].
  - intros k t. rewrite (replyStep_eq mm1).
    destruct (inheritFrom mm1 (threadAnnotationMap st1) x) as [t1|] eqn:E1.
    + pose proof (inheritFrom_fresh _ _ _ _ E1) as Hnone.
      unfold inheritFrom in E1. rewrite Hnone in E1.
      apply parentThread_Some in E1 as (r & p & Hr & Htr & Hp & Hpt & Htt).
      assert (E2 : inheritFrom mm2 (threadAnnotationMap st2) x = Some t1).
      { unfold inheritFrom. rewrite Hfresh by (done || by left).
        apply parentThread_Some. exists r, p.
        repeat split; [done..|by apply Hmm|by apply Hext|done]. }
      rewrite (replyStep_eq mm2), E2. simpl.
      destruct (decide (messageKey x = k)) as [<-|Hne].
      * by rewrite !lookup_insert_eq.
      * rewrite !lookup_insert_ne by done. apply Hext.
    + intros Hk. by apply replyStep_mono, Hext.
  - intros y Hy. rewrite !replyStep_other.
    + apply Hfresh. by right.
    + intros E. apply Hx. rewrite <-E. by apply list_elem_of_fmap_2.
    + intros E. apply Hx. rewrite <-E. by apply list_elem_of_fmap_2.
Qed.

End LoadMore.

(** X5: loading more messages never changes the thread of a message that
    already has one: with distinct keys, every message threaded among the
    messages loaded so far is in the same thread once further messages
    are appended. *)
Theorem X5_load_more_keeps_threads
    (anns : option ThreadAnnotations) (msgs extra : list ChatMessage)
    (m : ChatMessage) (t : string) :
  NoDup (messageKey <$> (msgs ++ extra)) →
  threadOf anns msgs m = Some t →
  threadOf anns (msgs ++ extra) m = Some t.
Proof.
  intros Hnd. unfold threadOf, thirdPass. rewrite foldl_app.
  intros Ht. apply reply_tam_mono. revert Ht.
  assert (Hnd1 : NoDup (messageKey <$> msgs)).
  { rewrite fmap_app in Hnd. by apply NoDup_app in Hnd as [? _]. }
  assert (Hsub : ∀ x, x ∈ msgs → x ∈ msgs ++ extra).
  { intros x Hx. apply elem_of_app. by left. }
  apply reply_extends; [done| | |].
  - intros r p Hp. apply messageMap_Some in Hp as [Hp <-].
    apply messageMap_elem; [done|by apply Hsub].
  - intros k t' Hk.
    destruct (decide (k ∈ messageKey <$> msgs)) as [Hin|Hout].
    + apply list_elem_of_fmap in Hin as (x & -> & Hx).
      rewrite secondPass_tam in Hk by done.
      rewrite secondPass_tam; [done|done|by apply Hsub].
    + unfold secondPass in Hk. rewrite annotate_tam_notin in Hk by done.
      unfold emptyThreads in Hk. cbn [threadAnnotationMap] in Hk.
      by rewrite lookup_empty in Hk.
  - intros x Hx. rewrite !secondPass_tam; [done|done|by apply Hsub|done..].
Qed.

Lemma X5_load_more_witness :
  threadOf Scenario.labelG [Scenario.tg; Scenario.tw; Scenario.tp]
    Scenario.tg = Some "A".
Proof.
  apply (X5_load_more_keeps_threads Scenario.labelG
           [Scenario.tg; Scenario.tw] [Scenario.tp]).
  - compute_done.
  - reflexivity.
Defined.

(** ** Loading the messages *)

Lemma toString_inj (a b : Z) : JS.toString a = JS.toString b → a = b.
Proof.
  unfold JS.toString. intros Heq.
  assert (Hnn : ∀ n, Z.to_int n ≠ Decimal.Pos Decimal.Nil
                     ∧ Z.to_int n ≠ Decimal.Neg Decimal.Nil).
  { intros n. split; intros Hn; pose proof (f_equal Z.of_int Hn) as Hz;
      rewrite DecimalZ.of_to in Hz; simpl in Hz; subst n; discriminate Hn. }
  apply DecimalZ.to_int_inj.
  apply (f_equal NilZero.int_of_string) in Heq.
  rewrite !NilZero.isi in Heq by apply Hnn. by injection Heq.
Qed.

Lemma orElse_truthy (a : option string) (b : string) :
  JS.truthy b = true → JS.truthy (MessagesQuery.orElse a b) = true.
Proof.
  intros Hb. destruct a as [s|]; simpl; [|done].
  unfold JS.or_else. by destruct (JS.truthy s) eqn:E.
Qed.

Lemma normalize_key (now now' : string) (f : MessagesQuery.Fetched) :
  messageKey (MessagesQuery.message (MessagesQuery.normalize now now' f))
  = turn_id (MessagesQuery.message (MessagesQuery.normalize now now' f)).
Proof.
  unfold messageKey, JS.or_else. simpl.
  rewrite orElse_truthy; [done|].
  apply truthy_true, toString_nonempty.
Qed.

(** X6: after the normalisation done on every fetched page, the turn id of
    a message is never empty and is the key the three passes use; messages
    sent without a turn id get the decimal form of their id, so that such
    messages with distinct ids have distinct keys. *)
Theorem X6_normalized_messages_have_keys
    (now now' : string) (fs : list MessagesQuery.Fetched) :
  (∀ f, f ∈ fs →
     let m := MessagesQuery.message (MessagesQuery.normalize now now' f) in
     JS.truthy (turn_id m) = true
     ∧ messageKey m = turn_id m
     ∧ (JS.truthy_opt (MessagesQuery.f_turn_id f) = false →
        turn_id m = JS.toString (MessagesQuery.f_id f)))
  ∧ ((∀ f, f ∈ fs → JS.truthy_opt (MessagesQuery.f_turn_id f) = false) →
     NoDup (MessagesQuery.f_id <$> fs) →
     NoDup (messageKey
              <$> (MessagesQuery.message ∘ MessagesQuery.normalize now now'
                     <$> fs))).
Proof.
  assert (Hmissing : ∀ f,
    JS.truthy_opt (MessagesQuery.f_turn_id f) = false →
    turn_id (MessagesQuery.message (MessagesQuery.normalize now now' f))
    = JS.toString (MessagesQuery.f_id f)).
  { intros f Hf. simpl. destruct (MessagesQuery.f_turn_id f) as [s|];
      simpl in *; [|done]. unfold JS.or_else. by rewrite Hf. }
  split.
  - intros f _. split; [|split].
    + simpl. apply orElse_truthy, truthy_true, toString_nonempty.
    + apply normalize_key.
    + apply Hmissing.
  - intros Hall Hnd. rewrite <-list_fmap_compose.
    induction fs as [|f fs IH]; [constructor|].
    rewrite fmap_cons in Hnd. rewrite fmap_cons.
    apply NoDup_cons in Hnd as [Hf Hnd].
    apply NoDup_cons. split.
    + intros Hin. apply list_elem_of_fmap in Hin as (f' & Hk & Hf').
      apply Hf. apply list_elem_of_fmap. exists f'. split; [|done].
      unfold compose in Hk. rewrite !normalize_key in Hk.
      rewrite !Hmissing in Hk by (apply Hall; (by left) || (by right)).
      by apply toString_inj.
    + apply IH; [|done]. intros f' Hf'. apply Hall. by right.
Qed.

Section Pages.
Context {A : Type} (items : list A) (server : MessagesQuery.PageRequest → list A).
Context (Hserver : MessagesQuery.slices items server).
Import MessagesQuery.

Abbreviation slicesUpTo := (MessagesQuery.slicesUpTo items).

Lemma slicesUpTo_S k :
  slicesUpTo (S k)
  = slicesUpTo k ++ [take PAGE_SIZE (drop (k * PAGE_SIZE) items)].
Proof. unfold slicesUpTo. by rewrite seq_S, fmap_app. Qed.

Lemma slicesUpTo_length k : length (slicesUpTo k) = k.
Proof. unfold slicesUpTo. by rewrite length_fmap, length_seq. Qed.

Lemma slicesUpTo_concat k :
  concat (slicesUpTo k) = take (k * PAGE_SIZE) items.
Proof.
  induction k as [|k IH]; [done|].
  rewrite slicesUpTo_S, concat_app, IH. simpl. rewrite app_nil_r.
  rewrite take_take_drop. f_equal. unfold PAGE_SIZE. lia.
Qed.

Lemma slicesUpTo_last k :
  last (slicesUpTo (S k))
  = Some (take PAGE_SIZE (drop (k * PAGE_SIZE) items)).
Proof. rewrite slicesUpTo_S. apply last_snoc. Qed.

Lemma fetchNextPage_slices k :
  fetchNextPage server (slicesUpTo (S k))
  = if decide (length (take PAGE_SIZE (drop (k * PAGE_SIZE) items))
               = PAGE_SIZE)
    then slicesUpTo (S (S k)) else slicesUpTo (S k).
Proof.
  unfold fetchNextPage. rewrite slicesUpTo_last. unfold getNextPageParam.
  case_decide as Hfull.
  - rewrite Hfull, Nat.eqb_refl, slicesUpTo_length.
    by rewrite (slicesUpTo_S (S k)), Hserver.
  - by apply Nat.eqb_neq in Hfull as ->.
Qed.

(** What is loaded is always the slices up to some page. *)
Lemma loadPages_slices n :
  ∃ k, (k <= n)%nat ∧ loadPages server n = slicesUpTo (S k)
       ∧ ((k < n)%nat → hasNextPage (loadPages server n) = false).
Proof.
  assert (Hstop : ∀ k, length (take PAGE_SIZE (drop (k * PAGE_SIZE) items))
                       ≠ PAGE_SIZE →
                       hasNextPage (slicesUpTo (S k)) = false).
  { intros k Hk. unfold hasNextPage. rewrite slicesUpTo_last.
    unfold getNextPageParam. apply Nat.eqb_neq in Hk as ->.
    apply bool_decide_eq_false. by intros [? ?]. }
  induction n as [|n (k & Hk & IH & Hdone)].
  - exists 0%nat. split; [done|]. split; [|lia].
    simpl. unfold fetchNextPage. simpl. by rewrite Hserver.
  - simpl. rewrite IH, fetchNextPage_slices. case_decide as Hfull.
    + destruct (decide (k = n)) as [->|Hne].
      * exists (S n). split; [done|]. split; [done|lia].
      * assert (Hno : hasNextPage (slicesUpTo (S k)) = false)
          by (rewrite <-IH; apply Hdone; lia).
        unfold hasNextPage in Hno. rewrite slicesUpTo_last in Hno.
        unfold getNextPageParam in Hno. rewrite Hfull, Nat.eqb_refl in Hno.
        apply bool_decide_eq_false in Hno. destruct Hno. by eexists.
    + exists k. split; [lia|]. split; [done|]. intros _. by apply Hstop.
Qed.

End Pages.

(** X7: when the server answers every request with the requested slice of
    the stored items, the messages loaded after the first fetch and [n]
    clicks on Load More are an initial segment of the stored items,
    without gap or repetition; they are all of them once there is no next
    page, and there is no next page exactly when there are fewer than
    [(n + 1) * PAGE_SIZE] items: a last page that is full leaves a next
    page to fetch even when nothing is left. *)
Theorem X7_pages_load_each_message_once
    {A : Type} (items : list A)
    (server : MessagesQuery.PageRequest → list A) (n : nat) :
  MessagesQuery.slices items server →
  MessagesQuery.allMessages (MessagesQuery.loadPages server n)
  = take (length (MessagesQuery.allMessages
                    (MessagesQuery.loadPages server n))) items
  ∧ (MessagesQuery.hasNextPage (MessagesQuery.loadPages server n) = false →
     MessagesQuery.allMessages (MessagesQuery.loadPages server n) = items)
  ∧ (MessagesQuery.hasNextPage (MessagesQuery.loadPages server n) = false
     ↔ (length items < (n + 1) * MessagesQuery.PAGE_SIZE)%nat).
Proof.
  intros Hserver.
  destruct (loadPages_slices items server Hserver n)
    as (k & Hk & Hpages & Hdone).
  assert (Hshort : MessagesQuery.hasNextPage (MessagesQuery.slicesUpTo items (S k)) = false →
                   (length items < (S k) * MessagesQuery.PAGE_SIZE)%nat).
  { unfold MessagesQuery.hasNextPage. rewrite slicesUpTo_last.
    unfold MessagesQuery.getNextPageParam.
    destruct (length (take MessagesQuery.PAGE_SIZE
                (drop (k * MessagesQuery.PAGE_SIZE) items))
              =? MessagesQuery.PAGE_SIZE)%nat eqn:E.
    - intros Hno. apply bool_decide_eq_false in Hno. destruct Hno.
      by eexists.
    - intros _. apply Nat.eqb_neq in E.
      rewrite length_take, length_drop in E. lia. }
  unfold MessagesQuery.allMessages. rewrite Hpages, slicesUpTo_concat.
  split; [|split].
  - rewrite length_take. destruct (decide
      (S k * MessagesQuery.PAGE_SIZE <= length items)%nat).
    + by rewrite Nat.min_l.
    + rewrite Nat.min_r by lia. rewrite !take_ge; [done|lia..].
  - rewrite <-Hpages. intros Hno. rewrite Hpages in Hno.
    apply Hshort in Hno. apply take_ge. lia.
  - rewrite <-Hpages. split.
    { intros Hno. rewrite Hpages in Hno. apply Hshort in Hno.
      revert Hno. unfold MessagesQuery.PAGE_SIZE. lia. }
    intros Hlen.
    destruct (decide (k = n)) as [->|Hne]; [|apply Hdone; lia].
    rewrite Hpages.
    unfold MessagesQuery.hasNextPage. rewrite slicesUpTo_last.
    unfold MessagesQuery.getNextPageParam.
    destruct (length (take MessagesQuery.PAGE_SIZE
                (drop (n * MessagesQuery.PAGE_SIZE) items))
              =? MessagesQuery.PAGE_SIZE)%nat eqn:E.
    + apply Nat.eqb_eq in E. rewrite length_take, length_drop in E. lia.
    + apply bool_decide_eq_false. by intros [? ?].
Qed.

Lemma X6_normalized_witness :
  NoDup (messageKey
           <$> (MessagesQuery.message
                  ∘ MessagesQuery.normalize "2024-06-01T00:00:00.000Z"
                      "2024-06-01T00:00:00.001Z"
                  <$> [Sample.bare 7; Sample.bare 8])).
Proof.
  destruct (X6_normalized_messages_have_keys "2024-06-01T00:00:00.000Z"
              "2024-06-01T00:00:00.001Z"
              [Sample.bare 7; Sample.bare 8]) as [_ Hdistinct].
  apply Hdistinct.
  - intros f Hf. by repeat (apply elem_of_cons in Hf as [->|Hf]; [done|]);
      apply elem_of_nil in Hf.
  - compute_done.
Defined.

Lemma X7_pages_witness :
  MessagesQuery.hasNextPage (MessagesQuery.loadPages Sample.sliceServer 2)
    = false
  ∧ MessagesQuery.allMessages (MessagesQuery.loadPages Sample.sliceServer 2)
    = Sample.stored.
Proof.
  destruct (X7_pages_load_each_message_once Sample.stored Sample.sliceServer 2)
    as (_ & Hall & Hdone).
  - intros r. reflexivity.
  - assert (Hno : MessagesQuery.hasNextPage
                    (MessagesQuery.loadPages Sample.sliceServer 2) = false)
      by (apply Hdone; vm_compute; lia).
    split; [exact Hno|exact (Hall Hno)].
Defined.

(** ** The annotation dialog *)

(** Dividing a whole percentage by 100, multiplying by 100 and rounding
    gives the percentage back, although the product is not always exact. *)
Lemma round_percent (p : Z) :
  (0 <= p <= 100)%Z →
  JSMath.round (PrimFloat.mul (PrimFloat.div (JSMath.ofZ p) 100) 100)
  = JSMath.ofZ p.
Proof.
  intros Hp.
  assert (Hall : Forall
    (λ p, JSMath.round (PrimFloat.mul (PrimFloat.div (JSMath.ofZ p) 100) 100)
          = JSMath.ofZ p) (seqZ 0 101)).
  { let l := eval vm_compute in (seqZ 0 101) in change (seqZ 0 101) with l.
    repeat (constructor; [vm_compute; reflexivity|]). constructor. }
  rewrite Forall_forall in Hall. apply Hall, elem_of_seqZ. lia.
Qed.

(** X8: a whole percentage entered in the form of the admin UI copy and
    stored as the form sends it comes back unchanged when the dialog is
    opened again on the annotated message, together with the thread id of
    the annotation. *)
Theorem X8_confidence_round_trip
    (anns : option ThreadAnnotations) (m msg : ChatMessage)
    (values : AnnotationForm.FormValues) (p : Z)
    (request : AnnotationForm.CreateAnnotation)
    (t : string) (a : Annotation) :
  (0 <= p <= 100)%Z →
  AnnotationForm.confidence values = JSMath.ofZ p →
  AnnotationForm.handleCreateAnnotation_copy (Some msg) values
    = Some request →
  findAnnotationForMessage anns m = Some (t, a) →
  a_confidence a = AnnotationForm.c_confidence request →
  AnnotationForm.confidence (AnnotateDialog.handleAnnotate anns m)
    = AnnotationForm.confidence values
  ∧ AnnotationForm.thread_id (AnnotateDialog.handleAnnotate anns m) = t.
Proof.
  intros Hp Hconf Hsent Hfound Hstored.
  unfold AnnotateDialog.handleAnnotate. rewrite Hfound. simpl.
  split; [|done].
  unfold AnnotationForm.handleCreateAnnotation_copy in Hsent.
  destruct (AnnotationForm.validate_copy values); [|done].
  injection Hsent as <-. simpl in Hstored.
  rewrite Hstored, Hconf. by apply round_percent.
Qed.

Lemma X8_confidence_witness :
  AnnotationForm.confidence
    (AnnotateDialog.handleAnnotate
       (Some [("A", [mkAnnotation "t1" (PrimFloat.div 57 100) "" "1" "manual"])])
       Scenario.t1)
  = 57%float
  ∧ AnnotationForm.thread_id
      (AnnotateDialog.handleAnnotate
         (Some [("A", [mkAnnotation "t1" (PrimFloat.div 57 100) "" "1" "manual"])])
         Scenario.t1)
    = "A".
Proof.
  apply (X8_confidence_round_trip _ Scenario.t1 Scenario.t1
           (AnnotationForm.mkForm "A" 57 "" "CHAT") 57
           (AnnotationForm.mkCreate 1 "A" (PrimFloat.div 57 100) "")
           "A" (mkAnnotation "t1" (PrimFloat.div 57 100) "" "1" "manual")).
  - lia.
  - reflexivity.
  - reflexivity.
  - reflexivity.
  - reflexivity.
Defined.

Lemma threadIdChar_not_whitespace (c : ascii) :
  AnnotationForm.threadIdChar c = true → JSString.isWhiteSpace c = false.
Proof.
  destruct c as [[] [] [] [] [] [] [] []]; by vm_compute.
Qed.

Lemma postedNotes_trimmed (notes n : string) :
  AnnotateDialog.postedNotes notes = Some n →
  n ≠ "" ∧ JSString.trim n = n.
Proof.
  unfold AnnotateDialog.postedNotes.
  destruct (JS.truthy (JSString.trim notes)) eqn:E; [|done].
  intros [= <-]. split; [by apply truthy_true|apply trim_idem].
Qed.

(** X9: for every input the form of the admin UI copy accepts, the thread
    id posted is the thread id entered (trimming changes nothing), the
    confidence posted is the hundredth of the one entered, and the notes
    are posted trimmed, or not at all when they are blank. *)
Theorem X9_posted_annotation
    (msg : ChatMessage) (values : AnnotationForm.FormValues) :
  AnnotationForm.validate_copy values = true →
  ∃ request,
    AnnotationForm.handleCreateAnnotation_copy (Some msg) values
      = Some request
    ∧ AnnotateDialog.b_thread_id (AnnotateDialog.createAnnotation_body request)
      = AnnotationForm.thread_id values
    ∧ AnnotateDialog.b_confidence (AnnotateDialog.createAnnotation_body request)
      = PrimFloat.div (AnnotationForm.confidence values) 100
    ∧ (JSString.trim (AnnotationForm.notes values) = ""
       ↔ AnnotateDialog.b_notes (AnnotateDialog.createAnnotation_body request)
         = None)
    ∧ ∀ n, AnnotateDialog.b_notes
             (AnnotateDialog.createAnnotation_body request) = Some n →
           n = JSString.trim (AnnotationForm.notes values)
           ∧ n ≠ "" ∧ JSString.trim n = n.
Proof.
  intros Hvalid.
  unfold AnnotationForm.handleCreateAnnotation_copy. rewrite Hvalid.
  eexists. split; [done|]. simpl.
  unfold AnnotationForm.validate_copy in Hvalid.
  apply andb_true_iff in Hvalid as [Hvalid _].
  apply andb_true_iff in Hvalid as [Hvalid _].
  apply andb_true_iff in Hvalid as [_ Hchars].
  split; [|split; [done|split]].
  - apply trim_no_whitespace.
    rewrite forallb_forall in Hchars |- *. intros c Hc.
    apply negb_true_iff, threadIdChar_not_whitespace. by apply Hchars.
  - unfold AnnotateDialog.postedNotes.
    destruct (JS.truthy (JSString.trim (AnnotationForm.notes values))) eqn:E.
    + apply truthy_true in E. by split.
    + split; [done|]. intros _.
      unfold JS.truthy in E. apply negb_false_iff in E.
      by apply bool_decide_eq_true in E.
  - intros n Hn. pose proof (postedNotes_trimmed _ _ Hn) as [Hne Htrim].
    split; [|done].
    unfold AnnotateDialog.postedNotes in Hn.
    destruct (JS.truthy (JSString.trim (AnnotationForm.notes values)));
      [by injection Hn|done].
Qed.

Lemma X9_posted_witness :
  ∃ request,
    AnnotationForm.handleCreateAnnotation_copy (Some Scenario.t1)
      Scenario.form50 = Some request
    ∧ AnnotateDialog.b_thread_id (AnnotateDialog.createAnnotation_body request)
      = "A".
Proof.
  destruct (X9_posted_annotation Scenario.t1 Scenario.form50 eq_refl)
    as (request & Hsent & Hthread & _).
  exists request. split; [exact Hsent|exact Hthread].
Defined.

(** ** Reading CSV lines *)

Section ParseLine.
Import CsvImport.
Implicit Types (cur line f : string) (q : bool).

Lemma parseFrom_fields cur q line f :
  (quote ∉ list_ascii_of_string cur) →
  f ∈ parseCSVLineFrom cur q line →
  (quote ∉ list_ascii_of_string f) ∧ JSString.trim f = f.
Proof.
  assert (Hdone : ∀ c, (quote ∉ list_ascii_of_string c) →
            (quote ∉ list_ascii_of_string (JSString.trim c))
            ∧ JSString.trim (JSString.trim c) = JSString.trim c).
  { intros c Hc. split; [|apply trim_idem].
    intros Hin. by apply Hc, trim_chars. }
  revert cur q. induction line as [|c line IH]; intros cur q Hcur; simpl.
  - intros ->%list_elem_of_singleton. by apply Hdone.
  - destruct (Ascii.eqb c quote) eqn:Eq; [by apply IH|].
    destruct (Ascii.eqb c comma && negb q).
    + intros [->|Hf]%elem_of_cons; [by apply Hdone|].
      by apply (IH EmptyString q); [intros ?%elem_of_nil|].
    + apply IH. rewrite chars_append. simpl.
      intros [Hin|Hin%list_elem_of_singleton]%elem_of_app; [done|].
      apply Ascii.eqb_neq in Eq. congruence.
Qed.

Lemma parseFrom_count cur line :
  (quote ∉ list_ascii_of_string line) →
  length (parseCSVLineFrom cur false line)
  = S (length (filter (λ c, c = comma) (list_ascii_of_string line))).
Proof.
  revert cur. induction line as [|c line IH]; intros cur Hline; [done|].
  simpl in Hline. apply not_elem_of_cons in Hline as [Hc Hline].
  cbn [parseCSVLineFrom list_ascii_of_string].
  destruct (Ascii.eqb_spec c quote) as [->|_]; [done|].
  destruct (Ascii.eqb_spec c comma) as [->|Hne]; cbn [andb negb].
  - rewrite filter_cons_True by done. cbn [length]. by rewrite IH.
  - rewrite filter_cons_False by done. by apply IH.
Qed.

(** Reading a field made of ordinary characters only adds it to the field
    under construction. *)
Lemma parseFrom_plain cur f rest :
  (quote ∉ list_ascii_of_string f) → (comma ∉ list_ascii_of_string f) →
  parseCSVLineFrom cur false (f +:+ rest)
  = parseCSVLineFrom (cur +:+ f) false rest.
Proof.
  revert cur. induction f as [|c f IH]; intros cur Hq Hc.
  - by rewrite append_nil_r.
  - simpl in Hq, Hc.
    apply not_elem_of_cons in Hq as [Hq1 Hq]. apply not_elem_of_cons in Hc as [Hc1 Hc].
    simpl.
    destruct (Ascii.eqb_spec c quote) as [->|_]; [done|].
    destruct (Ascii.eqb_spec c comma) as [->|_]; [done|].
    simpl. rewrite IH by done. f_equal.
    rewrite append_assoc. done.
Qed.

End ParseLine.

(** X10: [parseCSVLine] always gives at least one field; no field contains
    a double quote and every field is trimmed; on a line without double
    quotes there is one field more than there are commas. *)
Theorem X10_parsed_fields (line : string) :
  CsvImport.parseCSVLine line ≠ []
  ∧ (∀ f, f ∈ CsvImport.parseCSVLine line →
          (CsvImport.quote ∉ list_ascii_of_string f) ∧ JSString.trim f = f)
  ∧ ((CsvImport.quote ∉ list_ascii_of_string line) →
     length (CsvImport.parseCSVLine line)
     = S (length (filter (λ c, c = CsvImport.comma)
                         (list_ascii_of_string line)))).
Proof.
  split; [|split].
  - unfold CsvImport.parseCSVLine.
    generalize EmptyString, false.
    induction line as [|c line IH]; intros cur q; simpl; [done|].
    destruct (Ascii.eqb c CsvImport.quote); [apply IH|].
    destruct (Ascii.eqb c CsvImport.comma && negb q); [done|apply IH].
  - intros f. apply parseFrom_fields. by intros ?%elem_of_nil.
  - apply parseFrom_count.
Qed.

Lemma X10_parsed_witness :
  length (CsvImport.parseCSVLine "1, hello ,") = 3%nat.
Proof.
  destruct (X10_parsed_fields "1, hello ,") as (_ & _ & Hcount).
  rewrite Hcount; [reflexivity|]. compute_done.
Defined.

(** X11: joining trimmed fields that contain neither comma nor double
    quote with commas and parsing the line gives the fields back. *)
Theorem X11_join_parse_round_trip (fields : list string) :
  fields ≠ [] →
  Forall (λ f, (CsvImport.quote ∉ list_ascii_of_string f)
               ∧ (CsvImport.comma ∉ list_ascii_of_string f)
               ∧ JSString.trim f = f) fields →
  CsvImport.parseCSVLine (JSString.join CsvImport.comma fields) = fields.
Proof.
  unfold CsvImport.parseCSVLine.
  induction fields as [|f fields IH]; [done|]. intros _ Hall.
  apply Forall_cons in Hall as [(Hq & Hc & Htrim) Hall].
  destruct fields as [|f2 fields].
  - simpl. rewrite <-(append_nil_r f) at 1.
    rewrite parseFrom_plain by done. simpl. by rewrite Htrim.
  - change (JSString.join CsvImport.comma (f :: f2 :: fields))
      with (f +:+ String CsvImport.comma
                    (JSString.join CsvImport.comma (f2 :: fields))).
    rewrite parseFrom_plain by done.
    cbn [CsvImport.parseCSVLineFrom]. simpl (Ascii.eqb _ _).
    simpl (_ && _). cbn [String.append]. rewrite Htrim. f_equal.
    by apply IH.
Qed.

Lemma X11_round_trip_witness :
  CsvImport.parseCSVLine
    (JSString.join CsvImport.comma ["turn_id"; "hello there"; ""])
  = ["turn_id"; "hello there"; ""].
Proof.
  apply X11_join_parse_round_trip; [done|].
  repeat constructor; compute_done.
Defined.

(** X12: reading a CSV text fails exactly when it has fewer than two lines
    that are not blank; otherwise the header row is the first such line,
    and the preview keeps the following ones, at least one and at most
    five, whatever the length of the file. *)
Theorem X12_preview_rows (name text : string) :
  (CsvImport.parseCSVText name text = None
   ↔ (length (CsvImport.nonBlankLines text) < 2)%nat)
  ∧ ∀ preview, CsvImport.parseCSVText name text = Some preview →
      ImportPage.filename preview = name
      ∧ Some (ImportPage.headers preview)
        = CsvImport.parseCSVLine <$> head (CsvImport.nonBlankLines text)
      ∧ length (ImportPage.rows preview)
        = Nat.min (length (CsvImport.nonBlankLines text) - 1)%nat 5
      ∧ (1 <= length (ImportPage.rows preview) <= 5)%nat.
Proof.
  unfold CsvImport.parseCSVText.
  destruct (length (CsvImport.nonBlankLines text) <? 2)%nat eqn:E.
  - apply Nat.ltb_lt in E. split; [done|]. by intros preview.
  - apply Nat.ltb_ge in E. split; [split; [done|intros ?; exfalso; lia]|].
    intros preview [= <-].
    cbn [ImportPage.filename ImportPage.headers ImportPage.rows].
    rewrite length_fmap, length_take, length_drop.
    split; [done|]. split; [|lia].
    destruct (CsvImport.nonBlankLines text); [simpl in E; lia|done].
Qed.

Lemma X12_preview_witness :
  ∃ preview,
    CsvImport.parseCSV Sample.csvFile = Some preview
    ∧ length (ImportPage.rows preview) = 2%nat.
Proof.
  destruct (X12_preview_rows "chat.csv"
    (JSString.join CsvImport.newline
       ["turn_id,text,parent_id"; "1,hello,"; "2,hi there,1"; ""]))
    as [_ Hsome].
  eexists. split; [reflexivity|].
  by destruct (Hsome _ eq_refl) as (_ & _ & -> & _).
Defined.

(** ** The automatic column mappings *)

Section AutoMappings.
Import CsvImport.
Implicit Types (h lh : string) (p : ImportPage.CSVPreview).

Lemma headerMatches_includes lh (e : string * string) :
  headerMatches lh e = JSString.includes lh e.1.
Proof.
  unfold headerMatches. case_bool_decide as Heq; [|done].
  rewrite Heq. simpl. symmetry. apply includes_refl.
Qed.

Lemma autoMappings_fold (l : list string) (acc : gmap string string) h :
  foldl (λ autoMappings header,
           match mappedField header with
           | Some field => <[header := field]> autoMappings
           | None => autoMappings
           end) acc l !! h
  = if decide (h ∈ l)
    then match mappedField h with Some v => Some v | None => acc !! h end
    else acc !! h.
Proof.
  revert acc. induction l as [|x l IH]; intros acc; [done|].
  simpl. rewrite IH. destruct (decide (h = x)) as [->|Hne].
  - rewrite (decide_True (P := x ∈ x :: l)) by (by left).
    destruct (mappedField x) as [v|] eqn:E.
    + rewrite lookup_insert_eq. by destruct (decide (x ∈ l)).
    + by destruct (decide (x ∈ l)).
  - assert (Hiff : h ∈ x :: l ↔ h ∈ l).
    { rewrite elem_of_cons. split; [by intros [?|?]|by right]. }
    assert (Hacc : match mappedField x with
                   | Some field => <[x := field]> acc
                   | None => acc
                   end !! h = acc !! h).
    { destruct (mappedField x); [by rewrite lookup_insert_ne|done]. }
    rewrite Hacc. by rewrite (decide_ext _ _ _ _ Hiff).
Qed.

(** The mapping of a header is decided by the header alone. *)
Lemma autoMappings_lookup p h :
  createAutomaticMappings p !! h
  = if decide (h ∈ ImportPage.headers p) then mappedField h else None.
Proof.
  unfold createAutomaticMappings. rewrite autoMappings_fold, lookup_empty.
  case_decide; [|done]. by destruct (mappedField h).
Qed.

End AutoMappings.

(** The table lookup as a chain of tests on the normalised header. *)
Ltac known_chain :=
  unfold CsvImport.mappedField, CsvImport.knownMappings;
  cbn [ChatView.find];
  rewrite !headerMatches_includes; cbn [fst].

(** Case analysis on the first test of the chain. *)
Ltac first_test :=
  lazymatch goal with
  | |- context C [snd <$> (if ?b then _ else _)] =>
      let E := fresh "E" in destruct b eqn:E
  end.

(** An entry cannot match when an earlier entry whose key it contains did
    not. *)
Ltac shadowed :=
  match goal with
  | Ht : JSString.includes ?lh ?n = true,
    Hf : JSString.includes ?lh ?k = false |- _ =>
      rewrite (includes_trans lh n k Ht eq_refl) in Hf; discriminate Hf
  end.

Section KnownMappings.
Import CsvImport.
Implicit Types (h lh : string).

(** A header containing [message_id] is taken for the content. *)
Lemma mappedField_message_id h :
  JSString.includes (JSString.trim (JSString.toLowerCase h)) "message_id"
    = true →
  mappedField h = Some "content".
Proof.
  intros Hin. known_chain.
  first_test; [done|]. first_test; [done|]. first_test; [done|].
  shadowed.
Qed.

(** Only a header containing [reply_to] becomes the reply reference. *)
Lemma mappedField_reply_to h :
  mappedField h = Some "reply_to_turn" →
  JSString.includes (JSString.trim (JSString.toLowerCase h)) "reply_to" = true.
Proof.
  known_chain.
  do 11 (first_test; [by intros [=]|]).
  first_test; [done|].
  first_test; [intros _; shadowed|].
  first_test; [intros _; shadowed|].
  do 12 (first_test; [by intros [=]|]).
  by intros [=].
Qed.

(** A header containing [id] is mapped to the content, the user id or the
    turn id. *)
Lemma mappedField_id h :
  JSString.includes (JSString.trim (JSString.toLowerCase h)) "id" = true →
  mappedField h = Some "content" ∨ mappedField h = Some "user_id"
  ∨ mappedField h = Some "turn_id".
Proof.
  intros Hin. known_chain.
  do 4 (first_test; [by left|]).
  do 4 (first_test; [right; by left|]).
  do 3 (first_test; [right; by right|]).
  discriminate Hin.
Qed.

End KnownMappings.

(** X13: in the automatic mappings, a header is mapped to the reply
    reference only if it contains [reply_to]; a header containing
    [message_id] is mapped to the content, and one containing [parent_id]
    to the content, the user id or the turn id, because earlier entries of
    the table match them first. *)
Theorem X13_shadowed_known_mappings
    (p : ImportPage.CSVPreview) (h : string) :
  h ∈ ImportPage.headers p →
  (CsvImport.createAutomaticMappings p !! h = Some "reply_to_turn" →
   JSString.includes (JSString.trim (JSString.toLowerCase h)) "reply_to"
   = true)
  ∧ (JSString.includes (JSString.trim (JSString.toLowerCase h)) "message_id"
     = true →
     CsvImport.createAutomaticMappings p !! h = Some "content")
  ∧ (JSString.includes (JSString.trim (JSString.toLowerCase h)) "parent_id"
     = true →
     CsvImport.createAutomaticMappings p !! h = Some "content"
     ∨ CsvImport.createAutomaticMappings p !! h = Some "user_id"
     ∨ CsvImport.createAutomaticMappings p !! h = Some "turn_id").
Proof.
  intros Hh. rewrite autoMappings_lookup, decide_True by done.
  split; [|split].
  - apply mappedField_reply_to.
  - apply mappedField_message_id.
  - intros Hin. apply mappedField_id.
    by apply (includes_trans _ "parent_id" "id").
Qed.

Lemma X13_shadowed_witness :
  CsvImport.createAutomaticMappings
    (ImportPage.mkPreview ["turn_id"; "text"; "parent_id"] [] "chat.csv")
    !! "parent_id" = Some "turn_id".
Proof.
  destruct (X13_shadowed_known_mappings
              (ImportPage.mkPreview ["turn_id"; "text"; "parent_id"] []
                 "chat.csv") "parent_id") as (_ & _ & Hparent).
  - compute_done.
  - by destruct (Hparent eq_refl) as [Hc|[Hu|Ht]].
Defined.

(** ** From the selected files to the import request *)





(** X15: the automatic mappings go from header to field, while [importCSV]
    reads the content and type columns under the keys [content] and
    [type]: the import config names a content column only when a header is
    literally [content], a type column only when a header is literally
    [type] (and then it is the field [category]); every other mapped
    header is sent as metadata. *)
Theorem X15_config_of_automatic_mappings (p : ImportPage.CSVPreview) :
  ImportPage.cm_content
    (ImportPage.importCSV_config (CsvImport.createAutomaticMappings p))
  = (if decide ("content" ∈ ImportPage.headers p) then Some "content"
     else None)
  ∧ ImportPage.cm_type
      (ImportPage.importCSV_config (CsvImport.createAutomaticMappings p))
    = (if decide ("type" ∈ ImportPage.headers p) then Some "category"
       else None)
  ∧ ∀ h, ImportPage.cm_metadata
           (ImportPage.importCSV_config (CsvImport.createAutomaticMappings p))
           !! h
         = if decide (h = "content" ∨ h = "type") then None
           else CsvImport.createAutomaticMappings p !! h.
Proof.
  split; [|split].
  - simpl. rewrite autoMappings_lookup. by case_decide.
  - simpl. rewrite autoMappings_lookup. by case_decide.
  - intros h. simpl.
    destruct (CsvImport.createAutomaticMappings p !! h) as [v|] eqn:E.
    + case_decide as Hh.
      * apply map_lookup_filter_None. right. intros v' _ [H1 H2].
        simpl in *. by destruct Hh.
      * apply map_lookup_filter_Some. split; [done|]. simpl.
        split; intros ->; apply Hh; [by left|by right].
    + rewrite (proj2 (map_lookup_filter_None _ _ _)) by (by left).
      by case_decide.
Qed.

(** ** The request interceptor *)

Lemma isTokenExpired_later (decode : string → option ApiClient.Payload)
    (now1 now2 : Z) (tok : string) :
  (now1 <= now2)%Z →
  ApiClient.isTokenExpired decode now1 tok = true →
  ApiClient.isTokenExpired decode now2 tok = true.
Proof.
  unfold ApiClient.isTokenExpired. intros Hle.
  destruct (decode tok) as [[[e|]]|]; simpl; [|done..].
  rewrite !Z.leb_le. lia.
Qed.

(** X16: with a clock that does not go back between the two checks, the
    request interceptor sends a stored token only when it is not expired
    and then leaves the storage alone; a stored, non-empty token that is
    not sent is removed from the storage together with the user entry;
    without a token nothing is sent and nothing changes. *)
Theorem X16_expired_token_is_dropped
    (decode : string → option ApiClient.Payload) (now1 now2 : Z)
    (st : ApiClient.Storage) :
  (now1 <= now2)%Z →
  (∀ header, (ApiClient.onRequest decode now1 now2 st).1 = Some header →
     ∃ tok, ApiClient.token st = Some tok
            ∧ header = "Bearer " +:+ tok
            ∧ ApiClient.isTokenExpired decode now1 tok = false
            ∧ (ApiClient.onRequest decode now1 now2 st).2 = st)
  ∧ (∀ tok, ApiClient.token st = Some tok → JS.truthy tok = true →
       (ApiClient.onRequest decode now1 now2 st).1 = None →
       ApiClient.isTokenExpired decode now1 tok = true
       ∧ (ApiClient.onRequest decode now1 now2 st).2
         = ApiClient.mkStorage None None)
  ∧ (JS.truthy_opt (ApiClient.token st) = false →
     ApiClient.onRequest decode now1 now2 st = (None, st)).
Proof.
  intros Hclock. unfold ApiClient.onRequest. split; [|split].
  - intros header.
    destruct (ApiClient.token st) as [tok|]; [|done].
    destruct (JS.truthy tok); [|done].
    destruct (ApiClient.isTokenExpired decode now1 tok) eqn:E1; simpl.
    + by destruct (ApiClient.isTokenExpired decode now2 tok).
    + intros [= <-]. by exists tok.
  - intros tok -> ->.
    destruct (ApiClient.isTokenExpired decode now1 tok) eqn:E1; simpl;
      [|done].
    by rewrite (isTokenExpired_later decode now1 now2 tok Hclock E1).
  - destruct (ApiClient.token st) as [tok|]; simpl; [|done].
    by intros ->.
Qed.

Lemma X16_expired_token_witness :
  ApiClient.isTokenExpired Sample.storedPayload 500000 "old" = true
  ∧ (ApiClient.onRequest Sample.storedPayload 500000 500001
       (ApiClient.mkStorage (Some "old") (Some "ann"))).2
    = ApiClient.mkStorage None None.
Proof.
  destruct (X16_expired_token_is_dropped Sample.storedPayload 500000 500001
              (ApiClient.mkStorage (Some "old") (Some "ann")))
    as (_ & Hdrop & _); [lia|].
  apply (Hdrop "old"); reflexivity.
Defined.
